(** * Sudoku_Solver.py: a shallow embedding and its verified properties

    The program represents a 9x9 Sudoku as a [Board] of 81 [Cell] objects and
    solves it by backtracking with the MRV, Degree and LCV heuristics.

    Modelling conventions.
    - [Board()] always builds nine rows of nine cells and no method changes
      that shape, so the store is the row-major flattening of [self.board]:
      the cell [self[i,j]] is the element [9*i+j].
    - A reference to a cell object (an element of a [neighbors] list, the
      [min_cell] of the search) is the index of that cell in the store.  All
      mutation ([set_current], the rebinding of [values], [neighbors] and
      [assigned_neigh]) is an update of the store, which is threaded through
      every call.
    - Python integers are [Z]; a Python [str] is the list of its Unicode
      code points, and a one-character string is a code point. *)

From Stdlib Require Import ZArith Lia String Ascii Permutation Sorted.
From stdpp Require Import base list strings.

Local Open Scope string_scope.
Local Open Scope Z_scope.
Local Open Scope nat_scope.
Local Open Scope list_scope.

(** ** Strings *)

(** A Python [str]: its code points, in order. *)
Abbreviation pystr := (list N).

(** The [str] written by a literal of ASCII characters. *)
Definition str_of (s : string) : pystr := N_of_ascii <$> list_ascii_of_string s.

(** The character ['.']. *)
Definition dot : N := 46.

(** ** Cells and the store *)

(** [class Cell]: [id] is the three-character name (box letter, row digit,
    column digit), [cur_val] is 0 for an unassigned cell, [values] is the
    domain, [neighbors] holds references to other cells of the board and
    [assigned_neigh] is the counter of the degree heuristic. *)
Record Cell : Type := mkCell {
  id : pystr;
  cur_val : Z;
  values : list Z;
  neighbors : list nat;
  assigned_neigh : Z
}.

(** [Cell.__init__(id)] *)
Definition new_Cell (name : pystr) : Cell :=
  mkCell name 0 [1; 2; 3; 4; 5; 6; 7; 8; 9]%Z [] 0.

#[global] Instance Cell_inhabited : Inhabited Cell := populate (new_Cell []).

Abbreviation Board := (list Cell).

(** [cell.set_current(number)] for the cell referenced by [k]. *)
Definition set_current (b : Board) (k : nat) (number : Z) : Board :=
  alter (λ c, mkCell (id c) number (values c) (neighbors c) (assigned_neigh c)) k b.

(** [cell.values = vs] *)
Definition set_values (b : Board) (k : nat) (vs : list Z) : Board :=
  alter (λ c, mkCell (id c) (cur_val c) vs (neighbors c) (assigned_neigh c)) k b.

(** [cell.neighbors = ns; cell.assigned_neigh = a] *)
Definition set_neighbors (b : Board) (k : nat) (ns : list nat) (a : Z) : Board :=
  alter (λ c, mkCell (id c) (cur_val c) (values c) ns a) k b.

(** The nested loops [for i in range(9): for j in range(9)] visit the
    positions in row-major order. *)
Definition positions : list (nat * nat) :=
  i ← seq 0 9; j ← seq 0 9; [(i, j)].

(** The reference of [self[i,j]] for [i], [j] in [range(9)]. *)
Definition cell_ref (p : nat * nat) : nat := 9 * p.1 + p.2.

(** ** Forward check: [Board.initial_values] *)

(** [set(range(1, 10))].  A set of small integers is iterated by CPython in
    ascending order, which is the order [list(all_poss)] produces; the set is
    kept as the ascending list of its members. *)
Definition all_values : list Z := [1; 2; 3; 4; 5; 6; 7; 8; 9]%Z.

(** One iteration of [for neighbor in neighbors]. *)
Definition forward_step (b : Board) (all_poss : list Z) (neighbor : nat) : list Z :=
  let val := cur_val (b !!! neighbor) in
  if bool_decide (val ≠ 0%Z) && bool_decide (val ∈ all_poss)
  then filter (λ x, x ≠ val) all_poss
  else all_poss.

(** The set left in [all_poss] when the loop ends. *)
Definition pruned (b : Board) (nbrs : list nat) : list Z :=
  foldl (forward_step b) all_values nbrs.

(** [Board.initial_values(neighbors, cell)]: the new store and the returned
    list. *)
Definition initial_values (b : Board) (nbrs : list nat) (cell : nat) : Board * list Z :=
  let all_poss := pruned b nbrs in
  (set_values b cell all_poss, all_poss).

(** ** Exceptions *)

Inductive exn : Type := ValueError | IndexError | AttributeError.

(** A call either returns a value or raises. *)
Inductive result (A : Type) : Type :=
  | Ok (a : A)
  | Raise (e : exn).
Arguments Ok {A} a.
Arguments Raise {A} e.

#[global] Instance exn_eq_dec : EqDecision exn.
Proof. solve_decision. Defined.

#[global] Instance result_eq_dec {A : Type} `{!EqDecision A} : EqDecision (result A).
Proof. solve_decision. Defined.

#[global] Instance result_ret : MRet result := λ A a, Ok a.
#[global] Instance result_bind : MBind result := λ A B f m,
  match m with
  | Ok a => f a
  | Raise e => Raise e
  end.

(** The decimal digits of Unicode come in runs of ten consecutive code
    points, for the values 0 to 9.  These are the code points of the zeros
    of the 66 runs that [int] accepts in CPython 3.11 (Unicode 14.0); the
    first run is '0'..'9', the second the Arabic-Indic digits. *)
Definition decimal_zeros : list N :=
  [
    48; 1632; 1776; 1984; 2406; 2534; 2662; 2790;
    2918; 3046; 3174; 3302; 3430; 3558; 3664; 3792;
    3872; 4160; 4240; 6112; 6160; 6470; 6608; 6784;
    6800; 6992; 7088; 7232; 7248; 42528; 43216; 43264;
    43472; 43504; 43600; 44016; 65296; 66720; 68912; 69734;
    69872; 69942; 70096; 70384; 70736; 70864; 71248; 71360;
    71472; 71904; 72016; 72784; 73040; 73120; 92768; 92864;
    93008; 120782; 120792; 120802; 120812; 120822; 123200; 123632;
    125264; 130032 ]%N.

(** The value of a code point as a decimal digit, if it is one. *)
Definition decimal_value (c : N) : option Z :=
  match List.find (λ z, (z <=? c)%N && (c <? z + 10)%N) decimal_zeros with
  | Some z => Some (Z.of_N (c - z))
  | None => None
  end.

(** [int(c)] for a one-character string: a decimal digit of any script is
    accepted, every other character raises [ValueError]. *)
Definition int_of_char (c : N) : result Z :=
  match decimal_value c with
  | Some d => Ok d
  | None => Raise ValueError
  end.

(** Indexing a Python list of nine elements: negative indices count from the
    end, anything else out of range raises [IndexError]. *)
Definition py_index (n : Z) : result nat :=
  if (0 <=? n)%Z && (n <? 9)%Z then Ok (Z.to_nat n)
  else if (-9 <=? n)%Z && (n <? 0)%Z then Ok (Z.to_nat (n + 9))
  else Raise IndexError.

(** [Board.__getitem__((y, x))]: [self.board[y][x]]. *)
Definition getitem (y x : Z) : result nat :=
  r ← py_index y; c ← py_index x; Ok (cell_ref (r, c)).

(** ** [Board.__init__] *)

Definition board_ids : list pystr :=
  str_of <$>
  [ "A11"; "A12"; "A13"; "B14"; "B15"; "B16"; "C17"; "C18"; "C19";
    "A21"; "A22"; "A23"; "B24"; "B25"; "B26"; "C27"; "C28"; "C29";
    "A31"; "A32"; "A33"; "B34"; "B35"; "B36"; "C37"; "C38"; "C39";
    "D41"; "D42"; "D43"; "E44"; "E45"; "E46"; "F47"; "F48"; "F49";
    "D51"; "D52"; "D53"; "E54"; "E55"; "E56"; "F57"; "F58"; "F59";
    "D61"; "D62"; "D63"; "E64"; "E65"; "E66"; "F67"; "F68"; "F69";
    "G71"; "G72"; "G73"; "H74"; "H75"; "H76"; "I77"; "I78"; "I79";
    "G81"; "G82"; "G83"; "H84"; "H85"; "H86"; "I87"; "I88"; "I89";
    "G91"; "G92"; "G93"; "H94"; "H95"; "H96"; "I97"; "I98"; "I99" ].

Definition new_Board : Board := new_Cell <$> board_ids.

(** ** [Board.fill_initial_board] *)

(** The loop [for c in str_board], entered with the counter at [count]. *)
Fixpoint fill_from (b : Board) (count : nat) (str_board : pystr) : result Board :=
  match str_board with
  | [] => Ok b
  | c :: rest =>
    let row := count / 9 in
    let col := count mod 9 in
    if bool_decide (c ≠ dot) then
      cell ← getitem (Z.of_nat row) (Z.of_nat col);
      number ← int_of_char c;
      fill_from (set_current b cell number) (S count) rest
    else fill_from b (S count) rest
  end.

Definition fill_initial_board (b : Board) (str_board : pystr) : result Board :=
  fill_from b 0 str_board.

(** ** [Board.find_neighbors] *)

(** [s[k]] on the identifier of a cell (always three characters long). *)
Definition char_at (s : pystr) (k : nat) : N :=
  default 0%N (s !! k).

(** The body of the two nested loops, for the cell at position [p]; the
    accumulator is the pair of the locals [neighbors] and [assigned]. *)
Definition scan_step (b : Board) (box row col : N)
    (acc : list nat * Z) (p : nat * nat) : list nat * Z :=
  let cell := b !!! cell_ref p in
  if bool_decide (char_at (id cell) 1 = row) && bool_decide (char_at (id cell) 2 = col)
  then acc
  else if bool_decide (char_at (id cell) 0 = box)
          || bool_decide (char_at (id cell) 1 = row)
          || bool_decide (char_at (id cell) 2 = col)
  then (acc.1 ++ [cell_ref p],
        if bool_decide (cur_val cell ≠ 0%Z) then (acc.2 + 1)%Z else acc.2)
  else acc.

Definition find_neighbors (b : Board) (box row col : N) : result (Board * list nat) :=
  let found := foldl (scan_step b box row col) ([], 0%Z) positions in
  r ← int_of_char row;
  c ← int_of_char col;
  cell ← getitem (r - 1) (c - 1);
  Ok (set_neighbors b cell found.1 found.2, found.1).

(** ** [Board.board_is_solved] *)

Definition board_is_solved (b : Board) : bool :=
  forallb (λ p, negb (cur_val (b !!! cell_ref p) =? 0)%Z) positions.

(** ** Variable selection: [Board.degree] and [Board.find_less_poss] *)

Definition degree (b : Board) (min_cell other_cell : nat) : nat :=
  if (assigned_neigh (b !!! min_cell) <? assigned_neigh (b !!! other_cell))%Z
  then other_cell else min_cell.

(** The loop state of [find_less_poss]: the store and the locals [min_len]
    and [min_cell]. *)
Record mrv_state : Type := mkMrv {
  mrv_board : Board;
  min_len : nat;
  min_cell : option nat
}.

(** The body of the two nested loops, [cell] being the reference held by
    the local [cell]. *)
Definition mrv_visit (st : mrv_state) (cell : nat) : mrv_state :=
  let b := mrv_board st in
  if bool_decide (cur_val (b !!! cell) = 0%Z) then
    let b' := (initial_values b (neighbors (b !!! cell)) cell).1 in
    let current_len := length (values (b' !!! cell)) in
    match min_cell st with
    | None => mkMrv b' current_len (Some cell)
    | Some m =>
      if current_len <? min_len st then mkMrv b' current_len (Some cell)
      else if current_len =? min_len st then
        let m' := degree b' m cell in
        mkMrv b' (length (values (b' !!! m'))) (Some m')
      else mkMrv b' (min_len st) (Some m)
    end
  else st.

(** The iteration for the position [p]: [cell = self[i,j]]. *)
Definition mrv_step (st : mrv_state) (p : nat * nat) : mrv_state :=
  mrv_visit st (cell_ref p).

(** [Board.find_less_poss()]: the store after the refreshes and the returned
    cell, [None] when no cell is unassigned. *)
Definition find_less_poss (b : Board) : Board * option nat :=
  let st := foldl mrv_step (mkMrv b 10 None) positions in
  (mrv_board st, min_cell st).

(** ** [is_allowed] *)

Definition is_allowed (b : Board) (cell : nat) (value : Z) : bool :=
  forallb (λ i, negb (cur_val (b !!! i) =? value)%Z) (neighbors (b !!! cell)).

(** ** Value ordering: [least_constr_val] *)

(** The inner loop over [cell.neighbors], for one candidate [value]. *)
Definition constraints_imposed (b : Board) (cell : nat) (value : Z) : nat :=
  foldl (λ n neighbor,
           if bool_decide (cur_val (b !!! neighbor) = 0%Z)
              && bool_decide (value ∈ values (b !!! neighbor))
           then S n else n)
        0 (neighbors (b !!! cell)).

(** [list.sort(key=...)] is a stable ascending sort; the result of a stable
    sort is unique and is computed here by insertion from the right. *)
Fixpoint insert_by_key {A : Type} (key : A → nat) (x : A) (l : list A) : list A :=
  match l with
  | [] => [x]
  | y :: l' => if key x <=? key y then x :: l else y :: insert_by_key key x l'
  end.

Definition sort_by_key {A : Type} (key : A → nat) (l : list A) : list A :=
  foldr (insert_by_key key) [] l.

Definition least_constr_val (b : Board) (cell : nat) : list Z :=
  let value_scores :=
    (λ value, (value, constraints_imposed b cell value)) <$> values (b !!! cell) in
  fst <$> sort_by_key snd value_scores.

(** ** The search: [Board.backtrack_with_min_val] *)

(** What a call of the search does: it returns [sol] and leaves the store
    [b], or it raises, or it needs more nested calls than the depth budget
    allows. *)
Inductive outcome : Type :=
  | Return (sol : bool) (b : Board)
  | Raised (e : exn)
  | DepthExceeded.

(** [ordered_values]: the order in which the candidates are tried. *)
Definition ordered_values (b : Board) (cell : nat) : list Z :=
  if 1 <? length (values (b !!! cell)) then least_constr_val b cell
  else values (b !!! cell).

(** The loop [for i in ordered_values] followed by the un-assignment; [rec]
    is the recursive call.  Next to the outcome the loop reports the log of
    the stores it produced, one entry after each [set_current]. *)
Fixpoint try_values (rec : Board → list Board * outcome) (cell : nat)
    (vs : list Z) (b : Board) : list Board * outcome :=
  match vs with
  | [] => let b' := set_current b cell 0 in ([b'], Return false b')
  | i :: rest =>
    if is_allowed b cell i then
      let b1 := set_current b cell i in
      let '(log, r) := rec b1 in
      match r with
      | Return false b2 =>
        let '(log', r') := try_values rec cell rest b2 in (b1 :: log ++ log', r')
      | _ => (b1 :: log, r)
      end
    else try_values rec cell rest b
  end.

(** [backtrack_with_min_val], allowed [depth] nested activations. *)
Fixpoint backtrack_with_min_val (depth : nat) (b : Board) : list Board * outcome :=
  match depth with
  | O => ([], DepthExceeded)
  | S d =>
    if board_is_solved b then ([], Return true b)
    else
      let '(b1, found) := find_less_poss b in
      match found with
      | None => ([], Raised AttributeError)
      | Some cell =>
        let b2 := (initial_values b1 (neighbors (b1 !!! cell)) cell).1 in
        match values (b2 !!! cell) with
        | [] => ([], Return false b2)
        | _ => try_values (backtrack_with_min_val d) cell (ordered_values b2 cell) b2
        end
      end
  end.

(** [solve_back(board)] *)
Definition solve_back (depth : nat) (b : Board) : list Board * outcome :=
  backtrack_with_min_val depth b.

(** ** Board set-up as done by [main] *)

(** The body of the set-up loops of [main] for the cell at position [p]. *)
Definition setup_step (puzzle : pystr) (b : Board) (p : nat * nat) : result Board :=
  let cell := cell_ref p in
  let name := id (b !!! cell) in
  linked ← find_neighbors b (char_at name 0) (char_at name 1) (char_at name 2);
  filled_board ← fill_initial_board linked.1 puzzle;
  Ok (initial_values filled_board linked.2 cell).1.

Fixpoint for_each {A S : Type} (body : S → A → result S) (s : S) (l : list A) : result S :=
  match l with
  | [] => Ok s
  | x :: l' => s' ← body s x; for_each body s' l'
  end.

Definition setup (puzzle : pystr) : result Board :=
  for_each (setup_step puzzle) new_Board positions.

(** [find_neighbors] run once for every position, nothing else in between. *)
Definition link_step (b : Board) (p : nat * nat) : result Board :=
  let name := id (b !!! cell_ref p) in
  linked ← find_neighbors b (char_at name 0) (char_at name 1) (char_at name 2);
  Ok linked.1.

Definition link_all (b : Board) : result Board :=
  for_each link_step b positions.

(** ** Notions used by the statements *)

(** The current values of the 81 cells, in row-major order. *)
Definition cur_vals (b : Board) : list Z := cur_val <$> b.

(** The fields that the search is not supposed to touch. *)
Definition topology (c : Cell) : pystr * list nat * Z :=
  (id c, neighbors c, assigned_neigh c).

(** Number of unassigned cells. *)
Definition unassigned (b : Board) : nat :=
  length (filter (λ v, v = 0%Z) (cur_vals b)).

(** A board has the shape built by [Board()]. *)
Definition board_shape (b : Board) : Prop := length b = 81.



(** Cells [k] and [n] are different and share a row, a column or a box. *)
Definition peers (k n : nat) : bool :=
  negb (k =? n)
  && ((k / 9 =? n / 9) || (k mod 9 =? n mod 9)
      || ((k / 27 =? n / 27) && (k mod 9 / 3 =? n mod 9 / 3))).



(** The neighbor lists produced by [find_neighbors] on a new board. *)
Definition peer_graph : list (list nat) :=
  match link_all new_Board with
  | Ok b => neighbors <$> b
  | Raise _ => []
  end.

(** The cells of [b] are linked as [find_neighbors] links them. *)
Definition linked (b : Board) : Prop := neighbors <$> b = peer_graph.

(** No assigned cell holds a value outside 1..9 or a value that one of its
    neighbors holds. *)
Definition consistent (b : Board) : Prop :=
  ∀ k, k < length b → cur_val (b !!! k) ≠ 0%Z →
    (1 ≤ cur_val (b !!! k) ≤ 9)%Z ∧
    ∀ n, n ∈ neighbors (b !!! k) → cur_val (b !!! n) ≠ cur_val (b !!! k).

(** The value a symbol of a clue string stands for, if it is a clue. *)
Definition clue_of_char (c : N) : option Z :=
  if bool_decide (c = dot) then None
  else match int_of_char c with Ok d => Some d | Raise _ => None end.

(** The clue at position [k] of a clue string, if any. *)
Definition clue_at (str_board : pystr) (k : nat) : option Z :=
  str_board !! k ≫= clue_of_char.

(** The value left in cell [k] by the loop of [fill_initial_board] entered
    with the counter at [count] and the symbols [cs] still to read. *)
Definition filled_value (b : Board) (count : nat) (cs : pystr) (k : nat) : Z :=
  default (cur_val (b !!! k))
    (if decide (count ≤ k) then cs !! (k - count) ≫= clue_of_char else None).

(** A clue string of exactly 81 symbols from '.', '1'..'9'. *)
Definition well_formed (str_board : pystr) : Prop :=
  length str_board = 81 ∧
  Forall (λ c, c = dot ∨ (49 ≤ c ≤ 57)%N) str_board.

(** The symbol at position [k] makes [fill_initial_board] raise: it is not
    '.', and it lies after the 81st symbol or is no decimal digit. *)
Definition offending (k : nat) (c : N) : Prop :=
  c ≠ dot ∧ (81 ≤ k ∨ decimal_value c = None).

(** The number of currently unassigned neighbors of [cell] whose domain
    contains [value]. *)
Definition lcv_score (b : Board) (cell : nat) (value : Z) : nat :=
  length (filter (λ n, cur_val (b !!! n) = 0%Z ∧ value ∈ values (b !!! n))
                 (neighbors (b !!! cell))).

(** The domain a forward check gives to cell [k]. *)
Definition domain_of (b : Board) (k : nat) : list Z :=
  pruned b (neighbors (b !!! k)).

(** Cell [m] is preferred to cell [k] by the variable selection: a smaller
    domain, or the same size and a larger [assigned_neigh], or both equal
    and [m] not after [k] in the scan. *)
Definition preferred (b : Board) (m k : nat) : Prop :=
  length (domain_of b m) < length (domain_of b k) ∨
  (length (domain_of b m) = length (domain_of b k) ∧
   ((assigned_neigh (b !!! k) < assigned_neigh (b !!! m))%Z ∨
    (assigned_neigh (b !!! k) = assigned_neigh (b !!! m) ∧ m ≤ k))).

(** The state of the scan of [find_less_poss] on [b] after the first [n]
    cells. *)
Definition mrv_inv (b : Board) (n : nat) (st : mrv_state) : Prop :=
  length (mrv_board st) = length b ∧
  cur_vals (mrv_board st) = cur_vals b ∧
  topology <$> mrv_board st = topology <$> b ∧
  (∀ k, values (mrv_board st !!! k) =
        if decide (k < n ∧ cur_val (b !!! k) = 0%Z) then domain_of b k
        else values (b !!! k)) ∧
  match min_cell st with
  | None => ∀ k, k < n → cur_val (b !!! k) ≠ 0%Z
  | Some m =>
    m < n ∧ cur_val (b !!! m) = 0%Z ∧ min_len st = length (domain_of b m) ∧
    ∀ k, k < n → cur_val (b !!! k) = 0%Z → preferred b m k
  end.

(** The neighbor relation of [b] is symmetric and no cell is its own
    neighbor. *)
Definition symmetric (b : Board) : Prop :=
  ∀ k n, k < length b → n ∈ neighbors (b !!! k) →
    n < length b ∧ n ≠ k ∧ k ∈ neighbors (b !!! n).

(** The store [m] is [b] with, at most, other values in the cells that are
    unassigned in [b] and other domains. *)
Definition frame (b m : Board) : Prop :=
  length m = length b ∧
  topology <$> m = topology <$> b ∧
  ∀ k, cur_val (b !!! k) ≠ 0%Z → cur_val (m !!! k) = cur_val (b !!! k).

(** What an activation of the search entered with the store [b] and the
    depth budget [depth] does: the log and the outcome it may produce. *)
Definition search_post (depth : nat) (b : Board) (res : list Board * outcome) : Prop :=
  Forall (frame b) res.1 ∧
  match res.2 with
  | Return sol b' =>
    frame b b' ∧
    if sol then unassigned b' = 0 ∧ (symmetric b → consistent b → consistent b')
    else cur_vals b' = cur_vals b
  | Raised _ => False
  | DepthExceeded => depth ≤ unassigned b
  end.

(** The store [bs] met by the loop over the candidates of cell [c], in an
    activation entered with the store [b]: it differs from [b] in the value
    of [c] and in domains only. *)
Definition loop_state (b : Board) (c : nat) (bs : Board) : Prop :=
  length bs = length b ∧
  topology <$> bs = topology <$> b ∧
  ∃ x, cur_vals bs = <[c := x]> (cur_vals b).

(** ** Sample inputs *)

(** A clue string with a unique solution. *)
Definition sample_puzzle : pystr :=
  str_of "53..7....6..195....98....6.8...6...34..8.3..17...2...6.6....28....419..5....8..79".


(** A clue string whose first cell has no candidate left: the first row holds
    1..8 and the first column a 9. *)
Definition dead_puzzle : pystr :=
  str_of ".123456789.......................................................................".

(** The store a call leaves when it returns (empty otherwise). *)
Definition final_board (r : outcome) : Board :=
  match r with
  | Return _ b => b
  | _ => []
  end.

(** The board [main] builds for a clue string (empty if the set-up raises). *)
(** A clue string on which the search fails after it has tried values: the
    first three cells can only hold 1 or 2. *)
Definition stuck_puzzle : pystr :=
  str_of "...4567893.......................................................................".

(** A clue string of nine symbols, the third being the Arabic-Indic digit
    three (code point 1635). *)
Definition arabic_puzzle : pystr := [49; 50; 1635; 46; 46; 46; 46; 46; 46]%N.

Definition board_of (puzzle : pystr) : Board :=
  match setup puzzle with
  | Ok b => b
  | Raise _ => []
  end.

(** Symbol number [i] of [cs] is the first one that makes the loop of
    [fill_initial_board], entered with the counter at [count], raise. *)
Definition first_offending (cs : pystr) (count i : nat) : Prop :=
  (∃ c, cs !! i = Some c ∧ offending (count + i) c) ∧
  ∀ j c, j < i → cs !! j = Some c → ¬ offending (count + j) c.

(** The value the clue string gives to cell [k]: its digit, 0 without one. *)
Definition clue_value (puzzle : pystr) (k : nat) : Z :=
  default 0%Z (clue_at puzzle k).

(** How many of the cells [ns] are assigned in [b]. *)
Definition assigned_among (b : Board) (ns : list nat) : Z :=
  Z.of_nat (length (filter (λ n, cur_val (b !!! n) ≠ 0%Z) ns)).

(** The total assignment [g] completes [b]: it gives every cell a value of
    1..9, keeps the values of the assigned cells and gives no cell the value
    of one of its neighbors. *)
Definition solution_of (b : Board) (g : nat → Z) : Prop :=
  ∀ k, k < length b →
    (1 ≤ g k ≤ 9)%Z ∧
    (cur_val (b !!! k) ≠ 0%Z → g k = cur_val (b !!! k)) ∧
    ∀ n, n ∈ neighbors (b !!! k) → g n ≠ g k.

(** The solution of [sample_puzzle]. *)
Definition sample_solution : pystr :=
  str_of "534678912672195348198342567859761423426853791713924856961537284287419635345286179".

(** * Properties *)

(** ** The store *)

Section store.
Implicit Types (b : Board) (k n : nat).

Lemma fmap_lookup_total {B : Type} (f : Cell → B) b b' k :
  f <$> b = f <$> b' → f (b !!! k) = f (b' !!! k).
Proof.
  intros E. assert (L : length b = length b').
  { by rewrite <-(length_fmap f b), E, length_fmap. }
  rewrite !list_lookup_total_alt.
  assert (H := f_equal (λ l, l !! k) E). simpl in H.
  rewrite !list_lookup_fmap in H.
  destruct (b !! k), (b' !! k); simplify_eq/=; done.
Qed.

Lemma fmap_alter_unchanged {B : Type} (f : Cell → B) (g : Cell → Cell) b k :
  (∀ c, f (g c) = f c) → f <$> alter g k b = f <$> b.
Proof.
  intros H. rewrite (list_fmap_alter f g (λ x, x)).
  - by apply list_alter_id.
  - by apply Forall_forall.
Qed.

Lemma set_current_length b k v : length (set_current b k v) = length b.
Proof. apply length_alter. Qed.

Lemma set_values_length b k vs : length (set_values b k vs) = length b.
Proof. apply length_alter. Qed.

Lemma set_current_topology b k v : topology <$> set_current b k v = topology <$> b.
Proof.
  by apply fmap_alter_unchanged.
Qed.

Lemma set_values_topology b k vs : topology <$> set_values b k vs = topology <$> b.
Proof.
  by apply fmap_alter_unchanged.
Qed.

Lemma set_values_cur_vals b k vs : cur_vals (set_values b k vs) = cur_vals b.
Proof.
  by apply fmap_alter_unchanged.
Qed.

Lemma set_current_values b k v : values <$> set_current b k v = values <$> b.
Proof.
  by apply fmap_alter_unchanged.
Qed.

Lemma set_values_cur_val b k vs n : cur_val (set_values b k vs !!! n) = cur_val (b !!! n).
Proof. apply fmap_lookup_total, set_values_cur_vals. Qed.


Lemma set_current_neighbors b k v n :
  neighbors (set_current b k v !!! n) = neighbors (b !!! n).
Proof.
  assert (H := fmap_lookup_total topology _ _ n (set_current_topology b k v)).
  unfold topology in H. congruence.
Qed.

Lemma set_values_same b k vs : k < length b → values (set_values b k vs !!! k) = vs.
Proof.
  intros Hk. unfold set_values. destruct (lookup_lt_is_Some_2 b k Hk) as [c Hc].
  erewrite list_lookup_total_correct; [|by rewrite list_lookup_alter_eq, Hc]. done.
Qed.

Lemma set_values_other b k vs n : k ≠ n → set_values b k vs !!! n = b !!! n.
Proof. intros. unfold set_values. by rewrite list_lookup_total_alter_ne. Qed.

Lemma set_current_same b k v : k < length b → cur_val (set_current b k v !!! k) = v.
Proof.
  intros Hk. unfold set_current. destruct (lookup_lt_is_Some_2 b k Hk) as [c Hc].
  erewrite list_lookup_total_correct; [|by rewrite list_lookup_alter_eq, Hc]. done.
Qed.

Lemma set_current_other b k v n : k ≠ n → set_current b k v !!! n = b !!! n.
Proof. intros. unfold set_current. by rewrite list_lookup_total_alter_ne. Qed.

Lemma set_values_set_values b k vs vs' :
  set_values (set_values b k vs) k vs' = set_values b k vs'.
Proof.
  unfold set_values. rewrite list_alter_alter_eq. by apply list_alter_ext.
Qed.
End store.

(** ** Forward check *)

Section forward_check.
Implicit Types (b : Board) (nbrs : list nat) (s : list Z) (v : Z).

Lemma elem_of_all_values v : v ∈ all_values ↔ (1 ≤ v ≤ 9)%Z.
Proof.
  unfold all_values. rewrite !elem_of_cons, elem_of_nil. lia.
Qed.

Lemma elem_of_forward_step b s n v :
  v ∈ forward_step b s n ↔
  v ∈ s ∧ ¬ (cur_val (b !!! n) ≠ 0%Z ∧ cur_val (b !!! n) = v).
Proof.
  unfold forward_step.
  destruct (bool_decide_reflect (cur_val (b !!! n) ≠ 0%Z)) as [Hz|Hz]; simpl;
    [destruct (bool_decide_reflect (cur_val (b !!! n) ∈ s)) as [Hin|Hin]|].
  - rewrite list_elem_of_filter. split.
    + intros [H1 H2]. split; [done|]. intros [_ E]. by apply H1.
    + intros [H1 H2]. split; [|done]. intros E. apply H2. by split.
  - split; [|tauto]. intros Hv. split; [done|]. intros [_ E].
    apply Hin. by rewrite E.
  - tauto.
Qed.

Lemma elem_of_foldl_forward_step b nbrs s v :
  v ∈ foldl (forward_step b) s nbrs ↔
  v ∈ s ∧ ¬ ∃ n, n ∈ nbrs ∧ cur_val (b !!! n) ≠ 0%Z ∧ cur_val (b !!! n) = v.
Proof.
  revert s. induction nbrs as [|n nbrs IH]; intros s; simpl.
  - split; [|tauto]. intros Hv. split; [done|]. intros (n & Hn & _).
    by apply elem_of_nil in Hn.
  - rewrite IH, elem_of_forward_step. split.
    + intros [[Hs Hn] Hrest]. split; [done|]. intros (m & Hm & Hm').
      apply elem_of_cons in Hm as [->|Hm]; [tauto|]. apply Hrest. eauto.
    + intros [Hs Hno]. repeat split; [done|..].
      * intros Hn. apply Hno. exists n. split; [left|done].
      * intros (m & Hm & Hm'). apply Hno. exists m. split; [by right|done].
Qed.

Lemma forward_step_sublist b s n : forward_step b s n `sublist_of` s.
Proof.
  unfold forward_step. case_match; [apply sublist_filter|done].
Qed.

Lemma pruned_sublist b nbrs : pruned b nbrs `sublist_of` all_values.
Proof.
  unfold pruned. generalize all_values as s.
  induction nbrs as [|n nbrs IH]; intros s; simpl; [done|].
  etrans; [apply IH|apply forward_step_sublist].
Qed.

Lemma elem_of_pruned b nbrs v :
  v ∈ pruned b nbrs ↔
  (1 ≤ v ≤ 9)%Z ∧ ¬ ∃ n, n ∈ nbrs ∧ cur_val (b !!! n) ≠ 0%Z ∧ cur_val (b !!! n) = v.
Proof. unfold pruned. by rewrite elem_of_foldl_forward_step, elem_of_all_values. Qed.

Lemma NoDup_pruned b nbrs : NoDup (pruned b nbrs).
Proof.
  eapply sublist_NoDup; [|apply pruned_sublist].
  apply (bool_decide_unpack _). by vm_compute.
Qed.

Lemma pruned_length b nbrs : length (pruned b nbrs) ≤ 9.
Proof. apply (sublist_length _ all_values), pruned_sublist. Qed.

(** The result only reads the current values. *)
Lemma pruned_ext b b' nbrs : cur_vals b = cur_vals b' → pruned b nbrs = pruned b' nbrs.
Proof.
  intros E. unfold pruned. generalize all_values as s.
  induction nbrs as [|n nbrs IH]; intros s; simpl; [done|].
  rewrite IH. f_equal. unfold forward_step.
  by rewrite (fmap_lookup_total cur_val b b' n E).
Qed.
End forward_check.

(** C3.  [initial_values(neighbors, cell)] stores in [cell.values], and
    returns, the set {1..9} minus the current values of the assigned
    neighbors; the result does not depend on the domain the cell had before
    (a full recomputation), and right after the call no value of the domain
    is the current value of an assigned neighbor. *)
Theorem initial_values_recomputes_domain
    (b : Board) (nbrs : list nat) (cell : nat) (b' : Board) (vs : list Z) :
  cell < length b →
  initial_values b nbrs cell = (b', vs) →
  values (b' !!! cell) = vs ∧
  NoDup vs ∧
  (∀ v, v ∈ vs ↔
        (1 ≤ v ≤ 9)%Z ∧
        ¬ ∃ n, n ∈ nbrs ∧ cur_val (b !!! n) ≠ 0%Z ∧ cur_val (b !!! n) = v) ∧
  (∀ old, initial_values (set_values b cell old) nbrs cell = (b', vs)) ∧
  (∀ v n, v ∈ values (b' !!! cell) → n ∈ nbrs →
          cur_val (b' !!! n) ≠ 0%Z → cur_val (b' !!! n) ≠ v).
Proof.
  intros Hcell [= <- <-]. split_and!.
  - by apply set_values_same.
  - apply NoDup_pruned.
  - apply elem_of_pruned.
  - intros old. unfold initial_values.
    rewrite set_values_set_values.
    by rewrite (pruned_ext (set_values b cell old) b) by apply set_values_cur_vals.
  - intros v n Hv Hn Hz E. rewrite set_values_same in Hv by done.
    rewrite set_values_cur_val in Hz, E.
    apply elem_of_pruned in Hv as [_ Hv]. apply Hv. eauto.
Qed.

Lemma initial_values_recomputes_domain_witness :
  let b := set_current (set_current new_Board 1 4) 2 7 in
  let r := initial_values b [1; 2; 3] 0 in
  values (r.1 !!! 0) = r.2 ∧
  NoDup r.2 ∧
  (∀ v, v ∈ r.2 ↔
        (1 ≤ v ≤ 9)%Z ∧
        ¬ ∃ n, n ∈ [1; 2; 3] ∧ cur_val (b !!! n) ≠ 0%Z ∧ cur_val (b !!! n) = v) ∧
  (∀ old, initial_values (set_values b 0 old) [1; 2; 3] 0 = (r.1, r.2)) ∧
  (∀ v n, v ∈ values (r.1 !!! 0) → n ∈ [1; 2; 3] →
          cur_val (r.1 !!! n) ≠ 0%Z → cur_val (r.1 !!! n) ≠ v).
Proof.
  intros b r.
  apply (initial_values_recomputes_domain b [1; 2; 3] 0 r.1 r.2).
  - vm_compute. lia.
  - reflexivity.
Defined.

(** ** Clue strings: [fill_initial_board] *)

Section clues.
Implicit Types (b : Board) (cs : pystr) (c : N) (count k : nat).

Lemma py_index_nat k :
  py_index (Z.of_nat k) = if k <? 9 then Ok k else Raise IndexError.
Proof.
  unfold py_index. destruct (Nat.ltb_spec k 9).
  - replace ((0 <=? Z.of_nat k)%Z && (Z.of_nat k <? 9)%Z) with true.
    + by rewrite Nat2Z.id.
    + symmetry. apply andb_true_iff. split; [apply Z.leb_le|apply Z.ltb_lt]; lia.
  - replace ((Z.of_nat k <? 9)%Z) with false by (symmetry; apply Z.ltb_ge; lia).
    rewrite andb_false_r.
    replace ((Z.of_nat k <? 0)%Z) with false by (symmetry; apply Z.ltb_ge; lia).
    by rewrite andb_false_r.
Qed.

(** [self[count // 9, count % 9]] is the cell number [count], and raises
    [IndexError] from the 82nd symbol on. *)
Lemma getitem_count count :
  getitem (Z.of_nat (count / 9)) (Z.of_nat (count mod 9)) =
  if count <? 81 then Ok count else Raise IndexError.
Proof.
  unfold getitem. rewrite !py_index_nat.
  assert (count mod 9 < 9) by (apply Nat.mod_upper_bound; lia).
  assert (count = 9 * (count / 9) + count mod 9) by (apply Nat.div_mod_eq).
  destruct (Nat.ltb_spec count 81).
  - assert (count / 9 < 9) by (apply Nat.Div0.div_lt_upper_bound; lia).
    replace (count / 9 <? 9) with true by (symmetry; apply Nat.ltb_lt; lia).
    replace (count mod 9 <? 9) with true by (symmetry; apply Nat.ltb_lt; lia).
    unfold mbind, result_bind, cell_ref; cbn [fst snd]. f_equal. lia.
  - assert (9 ≤ count / 9) by (apply Nat.div_le_lower_bound; lia).
    replace (count / 9 <? 9) with false by (symmetry; apply Nat.ltb_ge; lia).
    done.
Qed.

(** A decimal digit has a value from 0 to 9. *)
Lemma decimal_value_range c d : decimal_value c = Some d → (0 ≤ d ≤ 9)%Z.
Proof.
  unfold decimal_value. destruct (find _ _) as [z|] eqn:E; [|done].
  apply find_some in E as [_ E].
  apply andb_true_iff in E as [H1%N.leb_le H2%N.ltb_lt].
  intros [= <-]. lia.
Qed.

(** The ASCII digits have their usual values. *)
Lemma decimal_value_ascii c :
  (48 ≤ c ≤ 57)%N → decimal_value c = Some (Z.of_N (c - 48)).
Proof.
  intros Hc. unfold decimal_value, decimal_zeros. cbn [find].
  replace ((48 <=? c)%N && (c <? 48 + 10)%N) with true; [done|].
  symmetry. apply andb_true_iff. split; [apply N.leb_le|apply N.ltb_lt]; lia.
Qed.

Lemma decimal_value_dot : decimal_value dot = None.
Proof. reflexivity. Qed.

Lemma clue_of_char_decimal c :
  clue_of_char c = if bool_decide (c = dot) then None else decimal_value c.
Proof.
  unfold clue_of_char, int_of_char. case_bool_decide; [done|].
  by destruct (decimal_value c).
Qed.

(** One iteration of the loop, with the indexing and the conversion
    resolved. *)
Lemma fill_from_cons b count c rest :
  fill_from b count (c :: rest) =
  if bool_decide (c = dot) then fill_from b (S count) rest
  else if bool_decide (81 ≤ count) then Raise IndexError
  else match decimal_value c with
       | Some d => fill_from (set_current b count d) (S count) rest
       | None => Raise ValueError
       end.
Proof.
  cbn [fill_from]. rewrite getitem_count. unfold int_of_char.
  destruct (bool_decide_reflect (c = dot)) as [->|Hc].
  - by rewrite bool_decide_false by (intros ?; done).
  - rewrite bool_decide_true by done.
    destruct (Nat.ltb_spec count 81).
    + rewrite (bool_decide_false (81 ≤ count)) by lia.
      unfold mbind, result_bind. by destruct (decimal_value c).
    + by rewrite (bool_decide_true (81 ≤ count)) by lia.
Qed.

Lemma offending_head count c rest :
  offending count c →
  ∃ i c', (c :: rest) !! i = Some c' ∧ offending (count + i) c'.
Proof. intros H. exists 0, c. by rewrite Nat.add_0_r. Qed.

Lemma offending_tail count c rest :
  ¬ offending count c →
  (∃ i c', rest !! i = Some c' ∧ offending (S count + i) c') ↔
  (∃ i c', (c :: rest) !! i = Some c' ∧ offending (count + i) c').
Proof.
  intros Hc. split.
  - intros (i & c' & Hi & Ho). exists (S i), c'. split; [done|].
    by replace (count + S i) with (S count + i) by lia.
  - intros (i & c' & Hi & Ho). destruct i as [|i]; simplify_eq/=.
    + by rewrite Nat.add_0_r in Ho.
    + exists i, c'. split; [done|].
      by replace (S (count + i)) with (count + S i) by lia.
Qed.

Lemma fill_from_raises b count cs :
  (∃ e, fill_from b count cs = Raise e) ↔
  ∃ i c, cs !! i = Some c ∧ offending (count + i) c.
Proof.
  revert b count. induction cs as [|c rest IH]; intros b count.
  - simpl. split; [by intros [? ?]|]. by intros (i & c & ? & _).
  - rewrite fill_from_cons.
    destruct (bool_decide_reflect (c = dot)) as [Hc|Hc];
      [|destruct (bool_decide_reflect (81 ≤ count)) as [Hk|Hk];
        [|destruct (decimal_value c) as [d|] eqn:Hd]].
    + rewrite IH. apply (offending_tail count c rest). unfold offending. tauto.
    + split; [intros _|by eauto]. apply offending_head. unfold offending. tauto.
    + rewrite IH. apply (offending_tail count c rest). unfold offending.
      rewrite Hd. intros [_ [?|?]]; [lia|done].
    + split; [intros _|by eauto]. apply offending_head. unfold offending. tauto.
Qed.

Lemma filled_value_skip b count c rest k :
  clue_of_char c = None →
  filled_value b count (c :: rest) k = filled_value b (S count) rest k.
Proof.
  intros Hc. unfold filled_value.
  destruct (decide (count ≤ k)) as [Hle|Hle]; [destruct (decide (k = count)) as [->|Hne]|].
  - rewrite Nat.sub_diag. simpl. rewrite Hc.
    by rewrite (decide_False (P := S count ≤ count)) by lia.
  - rewrite (decide_True (P := S count ≤ k)) by lia.
    by replace (k - count) with (S (k - S count)) by lia.
  - by rewrite (decide_False (P := S count ≤ k)) by lia.
Qed.

Lemma filled_value_set b count c rest k d :
  clue_of_char c = Some d → count < length b →
  filled_value b count (c :: rest) k =
  filled_value (set_current b count d) (S count) rest k.
Proof.
  intros Hc Hlen. unfold filled_value.
  destruct (decide (count ≤ k)) as [Hle|Hle]; [destruct (decide (k = count)) as [->|Hne]|].
  - rewrite Nat.sub_diag. simpl. rewrite Hc.
    rewrite (decide_False (P := S count ≤ count)) by lia.
    simpl. by rewrite set_current_same.
  - rewrite (decide_True (P := S count ≤ k)) by lia.
    replace (k - count) with (S (k - S count)) by lia.
    by rewrite set_current_other by lia.
  - rewrite (decide_False (P := S count ≤ k)) by lia.
    by rewrite set_current_other by lia.
Qed.

Lemma fill_from_returns b count cs b' :
  board_shape b →
  fill_from b count cs = Ok b' →
  board_shape b' ∧ topology <$> b' = topology <$> b ∧ values <$> b' = values <$> b ∧
  ∀ k, cur_val (b' !!! k) = filled_value b count cs k.
Proof.
  revert b count. induction cs as [|c rest IH]; intros b count Hb.
  - intros [= <-]. split_and!; try done. intros k. unfold filled_value.
    rewrite lookup_nil. by case_decide.
  - rewrite fill_from_cons. assert (Hd := clue_of_char_decimal c).
    destruct (bool_decide_reflect (c = dot)) as [Hc|Hc];
      [|destruct (bool_decide_reflect (81 ≤ count)) as [Hk|Hk];
        [|destruct (decimal_value c) as [d|] eqn:Hg]];
      try done; intros Hfill.
    + destruct (IH _ _ Hb Hfill) as (? & ? & ? & Hv). split_and!; try done.
      intros k. by rewrite Hv, filled_value_skip.
    + assert (Hb1 : board_shape (set_current b count d)).
      { unfold board_shape. by rewrite set_current_length. }
      destruct (IH _ _ Hb1 Hfill) as (? & Ht & Hvs & Hv). split_and!; try done.
      * by rewrite Ht, set_current_topology.
      * by rewrite Hvs, set_current_values.
      * intros k. rewrite Hv. symmetry. apply filled_value_set; [done|].
        unfold board_shape in Hb. lia.
Qed.

Lemma well_formed_not_offending (s : pystr) k c :
  well_formed s → s !! k = Some c → ¬ offending k c.
Proof.
  intros [Hlen Hall] Hget [Hdot Hbad].
  assert (k < 81).
  { rewrite <-Hlen. by eapply lookup_lt_Some. }
  rewrite Forall_forall in Hall.
  destruct (Hall c) as [?|Hc]; [by eapply list_elem_of_lookup_2|done|].
  destruct Hbad as [?|Hbad]; [lia|].
  rewrite decimal_value_ascii in Hbad by lia. done.
Qed.
End clues.

(** C9 (as the code has it).  On a board of 81 cells [fill_initial_board]
    raises exactly when the string holds, among its first 81 symbols, one
    that is neither '.' nor a decimal digit that [int] accepts (the digits
    '0'..'9' and the decimal digits of the other scripts of Unicode), or,
    after them, one that is not '.'; otherwise it returns and every cell
    holds the digit found at its row-major position, or what it held before
    where the string has '.' or has ended.  In particular a well-formed
    string of 81 symbols is accepted, its clue digits 1..9 are assigned and
    the cells at '.' keep their value (0 on a new board). *)
Theorem fill_initial_board_accepts (b : Board) (str_board : pystr) :
  board_shape b →
  ((∃ e, fill_initial_board b str_board = Raise e) ↔
   (∃ k c, str_board !! k = Some c ∧ offending k c)) ∧
  (∀ b', fill_initial_board b str_board = Ok b' →
     ∀ k, cur_val (b' !!! k) = default (cur_val (b !!! k)) (clue_at str_board k)) ∧
  (well_formed str_board →
     ∃ b', fill_initial_board b str_board = Ok b' ∧
       ∀ k c, str_board !! k = Some c →
         if bool_decide (c = dot)
         then cur_val (b' !!! k) = cur_val (b !!! k)
         else cur_val (b' !!! k) = Z.of_N (c - 48)
              ∧ (1 ≤ cur_val (b' !!! k) ≤ 9)%Z) ∧
  (∀ c, (48 ≤ c ≤ 57)%N → decimal_value c = Some (Z.of_N (c - 48))) ∧
  (∀ c d, decimal_value c = Some d → (0 ≤ d ≤ 9)%Z ∧ c ≠ dot).
Proof.
  intros Hb.
  assert (Hraise : (∃ e, fill_initial_board b str_board = Raise e) ↔
                   (∃ k c, str_board !! k = Some c ∧ offending k c)).
  { unfold fill_initial_board. by rewrite fill_from_raises. }
  assert (Hok : ∀ b', fill_initial_board b str_board = Ok b' →
     ∀ k, cur_val (b' !!! k) = default (cur_val (b !!! k)) (clue_at str_board k)).
  { intros b' Hfill k. apply fill_from_returns in Hfill as (_ & _ & _ & Hv); [|done].
    rewrite Hv. unfold filled_value, clue_at.
    rewrite decide_True by lia. by rewrite Nat.sub_0_r. }
  split_and!; [done..| | |].
  - intros Hwf. destruct (fill_initial_board b str_board) as [b'|e] eqn:Hfill.
    + exists b'. split; [done|]. intros k c Hget.
      rewrite (Hok b' eq_refl k). unfold clue_at. rewrite Hget. simpl.
      rewrite clue_of_char_decimal.
      destruct Hwf as [_ Hall]. rewrite Forall_forall in Hall.
      destruct (Hall c) as [Hc|Hc]; [by eapply list_elem_of_lookup_2|..].
      * by rewrite !bool_decide_true.
      * case_bool_decide as Hdot; [done|].
        rewrite decimal_value_ascii by lia. simpl. split; [done|lia].
    + exfalso. destruct Hraise as [Hraise _].
      destruct Hraise as (k & c & Hget & Ho); [by eauto|].
      by eapply well_formed_not_offending.
  - apply decimal_value_ascii.
  - intros c d Hd. split; [by eapply decimal_value_range|].
    intros ->. by rewrite decimal_value_dot in Hd.
Qed.

Lemma fill_initial_board_accepts_witness :
  well_formed sample_puzzle ∧
  ∃ b', fill_initial_board new_Board sample_puzzle = Ok b' ∧
    ∀ k c, sample_puzzle !! k = Some c →
      if bool_decide (c = dot)
      then cur_val (b' !!! k) = cur_val (new_Board !!! k)
      else cur_val (b' !!! k) = Z.of_N (c - 48)
           ∧ (1 ≤ cur_val (b' !!! k) ≤ 9)%Z.
Proof.
  assert (Hwf : well_formed sample_puzzle).
  { split; [reflexivity|]. apply (bool_decide_unpack _). by vm_compute. }
  split; [exact Hwf|].
  apply (fill_initial_board_accepts new_Board sample_puzzle); [reflexivity|exact Hwf].
Defined.

(** C9 as stated fails: the empty string is not a string of 81 symbols, yet
    nothing is signalled and the board is returned as it was. *)
Lemma short_clue_string_accepted :
  ¬ well_formed (str_of "") ∧ fill_initial_board new_Board (str_of "") = Ok new_Board.
Proof. split; [|reflexivity]. intros [Hlen _]. discriminate Hlen. Qed.

(** A digit of another script is a clue like any other: the Arabic-Indic
    three is accepted by [int] and puts 3 in its cell. *)
Example arabic_indic_digit_accepted :
  int_of_char 1635 = Ok 3%Z ∧
  ∃ b', fill_initial_board new_Board arabic_puzzle = Ok b' ∧ cur_val (b' !!! 2) = 3%Z.
Proof. split; [reflexivity|]. eexists. split; [vm_compute; reflexivity|reflexivity]. Qed.

(** ** Value ordering *)

Section value_ordering.
Context {A : Type} (key : A → nat).
Implicit Types (x : A) (l : list A).

Lemma insert_by_key_perm x l : insert_by_key key x l ≡ₚ x :: l.
Proof.
  induction l as [|y l IH]; simpl; [done|].
  case_match; [done|]. rewrite IH. apply Permutation_swap.
Qed.

Lemma sort_by_key_perm l : sort_by_key key l ≡ₚ l.
Proof.
  induction l as [|x l IH]; simpl; [done|].
  by rewrite insert_by_key_perm, IH.
Qed.

Lemma insert_by_key_sorted x l :
  StronglySorted (λ a a', key a ≤ key a') l →
  StronglySorted (λ a a', key a ≤ key a') (insert_by_key key x l).
Proof.
  induction 1 as [|y l Hl IH Hy]; simpl.
  - repeat constructor.
  - destruct (Nat.leb_spec (key x) (key y)) as [Hle|Hlt].
    + constructor; [by constructor|]. constructor; [done|].
      eapply Forall_impl; [exact Hy|]. simpl. lia.
    + constructor; [done|]. rewrite insert_by_key_perm.
      constructor; [lia|done].
Qed.

Lemma sort_by_key_sorted l :
  StronglySorted (λ a a', key a ≤ key a') (sort_by_key key l).
Proof.
  induction l as [|x l IH]; simpl; [constructor|].
  by apply insert_by_key_sorted.
Qed.

(** Stability: the elements of one key keep their relative order. *)
Lemma insert_by_key_stable n x l :
  filter (λ a, key a = n) (insert_by_key key x l) = filter (λ a, key a = n) (x :: l).
Proof.
  induction l as [|y l IH]; simpl; [done|].
  destruct (Nat.leb_spec (key x) (key y)) as [Hle|Hlt]; [done|].
  rewrite !filter_cons, IH, !filter_cons.
  repeat case_decide; done || lia.
Qed.

Lemma sort_by_key_stable n l :
  filter (λ a, key a = n) (sort_by_key key l) = filter (λ a, key a = n) l.
Proof.
  induction l as [|x l IH]; simpl; [done|].
  by rewrite insert_by_key_stable, !filter_cons, IH.
Qed.

(** Sorting the pairs (element, key) by their second component is sorting
    the elements by [key]. *)
Lemma insert_by_key_tagged x l :
  insert_by_key snd (x, key x) ((λ a, (a, key a)) <$> l) =
  (λ a, (a, key a)) <$> insert_by_key key x l.
Proof.
  induction l as [|y l IH]; csimpl; [done|].
  case_match; [done|]. csimpl. by rewrite IH.
Qed.

Lemma sort_by_key_tagged l :
  fst <$> sort_by_key snd ((λ a, (a, key a)) <$> l) = sort_by_key key l.
Proof.
  assert (E : sort_by_key snd ((λ a, (a, key a)) <$> l) =
              (λ a, (a, key a)) <$> sort_by_key key l).
  { induction l as [|x l IH]; csimpl; [done|].
    change (foldr (insert_by_key snd) [] ((λ a, (a, key a)) <$> l))
      with (sort_by_key snd ((λ a, (a, key a)) <$> l)).
    by rewrite IH, insert_by_key_tagged. }
  rewrite E, <-list_fmap_compose. by rewrite list_fmap_id.
Qed.
End value_ordering.

Lemma foldl_count {A : Type} (f : A → bool) (P : A → Prop) `{!∀ x, Decision (P x)}
    (l : list A) (a : nat) :
  (∀ x, f x = true ↔ P x) →
  foldl (λ n x, if f x then S n else n) a l = a + length (filter P l).
Proof.
  intros Hf. revert a. induction l as [|x l IH]; intros a; simpl; [lia|].
  rewrite IH, filter_cons. specialize (Hf x).
  destruct (f x); case_decide; simpl; try lia; exfalso; intuition congruence.
Qed.

Lemma constraints_imposed_count (b : Board) (cell : nat) (value : Z) :
  constraints_imposed b cell value = lcv_score b cell value.
Proof.
  unfold constraints_imposed, lcv_score.
  rewrite (foldl_count _ (λ n, cur_val (b !!! n) = 0%Z ∧ value ∈ values (b !!! n))); [done|].
  intros n. by rewrite andb_true_iff, !bool_decide_eq_true.
Qed.

Lemma least_constr_val_sort (b : Board) (cell : nat) :
  least_constr_val b cell = sort_by_key (lcv_score b cell) (values (b !!! cell)).
Proof.
  unfold least_constr_val.
  rewrite (list_fmap_ext _ (λ a, (a, lcv_score b cell a)) (values (b !!! cell)));
    [apply sort_by_key_tagged|].
  intros i v _. by rewrite constraints_imposed_count.
Qed.

Lemma ordered_values_perm (b : Board) (cell : nat) :
  ordered_values b cell ≡ₚ values (b !!! cell).
Proof.
  unfold ordered_values. case_match; [|done].
  rewrite least_constr_val_sort. apply sort_by_key_perm.
Qed.

(** The first activation of the search on a board that is not solved. *)
Lemma backtrack_with_min_val_step (d : nat) (b b1 : Board) (cell : nat) :
  board_is_solved b = false →
  find_less_poss b = (b1, Some cell) →
  let b2 := (initial_values b1 (neighbors (b1 !!! cell)) cell).1 in
  backtrack_with_min_val (S d) b =
  if bool_decide (values (b2 !!! cell) = []) then ([], Return false b2)
  else try_values (backtrack_with_min_val d) cell (ordered_values b2 cell) b2.
Proof.
  intros Hs Hf. cbn [backtrack_with_min_val]. rewrite Hs, Hf. cbv zeta.
  destruct (values _) eqn:E; [done|]. by rewrite bool_decide_false.
Qed.

(** C5.  When the domain of the selected cell holds more than one candidate
    the search tries the candidates in the order of [least_constr_val]: a
    permutation of [cell.values], ascending in the number of currently
    unassigned neighbors whose domain contains the candidate, candidates of
    equal score keeping their relative order in [cell.values]; a domain of
    one candidate is tried as it is. *)
Theorem value_order_is_least_constraining (b : Board) (cell : nat) :
  let vals := values (b !!! cell) in
  let score := lcv_score b cell in
  (∀ v, constraints_imposed b cell v = score v) ∧
  least_constr_val b cell ≡ₚ vals ∧
  StronglySorted (λ v v', score v ≤ score v') (least_constr_val b cell) ∧
  (∀ n, filter (λ v, score v = n) (least_constr_val b cell) =
        filter (λ v, score v = n) vals) ∧
  (1 < length vals → ordered_values b cell = least_constr_val b cell) ∧
  (length vals = 1 → ordered_values b cell = vals) ∧
  (∀ d b0 b1,
     board_is_solved b0 = false →
     find_less_poss b0 = (b1, Some cell) →
     b = (initial_values b1 (neighbors (b1 !!! cell)) cell).1 →
     vals ≠ [] →
     backtrack_with_min_val (S d) b0 =
     try_values (backtrack_with_min_val d) cell (ordered_values b cell) b).
Proof.
  intros vals score. split_and!.
  - apply constraints_imposed_count.
  - rewrite least_constr_val_sort. apply sort_by_key_perm.
  - rewrite least_constr_val_sort. apply sort_by_key_sorted.
  - intros n. rewrite least_constr_val_sort. apply sort_by_key_stable.
  - intros Hlen. unfold ordered_values.
    by replace (1 <? _) with true by (symmetry; apply Nat.ltb_lt; exact Hlen).
  - intros Hlen. unfold ordered_values. fold vals. by rewrite Hlen.
  - intros d b0 b1 Hs Hf -> Hne.
    rewrite (backtrack_with_min_val_step d b0 b1 cell Hs Hf). cbv zeta.
    by rewrite bool_decide_false.
Qed.

(** ** Variable selection *)

Section variable_selection.
Implicit Types (b : Board) (st : mrv_state) (k m n : nat).

Lemma positions_refs : cell_ref <$> positions = seq 0 81.
Proof. reflexivity. Qed.

Lemma topology_lookup b b' k :
  topology <$> b = topology <$> b' →
  id (b !!! k) = id (b' !!! k) ∧ neighbors (b !!! k) = neighbors (b' !!! k) ∧
  assigned_neigh (b !!! k) = assigned_neigh (b' !!! k).
Proof.
  intros E. assert (H := fmap_lookup_total topology _ _ k E).
  unfold topology in H. by simplify_eq.
Qed.

Lemma cur_vals_lookup b b' k :
  cur_vals b = cur_vals b' → cur_val (b !!! k) = cur_val (b' !!! k).
Proof. apply fmap_lookup_total. Qed.

Lemma domain_of_ext b b' k :
  cur_vals b = cur_vals b' → topology <$> b = topology <$> b' →
  domain_of b k = domain_of b' k.
Proof.
  intros Ev Et. unfold domain_of.
  destruct (topology_lookup b b' k Et) as (_ & -> & _). by apply pruned_ext.
Qed.

Lemma preferred_refl b m : preferred b m m.
Proof. right. split; [done|]. right. done. Qed.

Lemma mrv_visit_inv b n st :
  n < length b → mrv_inv b n st → mrv_inv b (S n) (mrv_visit st n).
Proof.
  intros Hn (Hlen & Hcv & Htop & Hvals & Hmin). unfold mrv_visit.
  rewrite (cur_vals_lookup _ _ n Hcv).
  destruct (bool_decide_reflect (cur_val (b !!! n) = 0%Z)) as [Hz|Hz].
  - (* the cell is unassigned: its domain is refreshed *)
    cbv zeta. unfold initial_values. cbn [fst].
    change (pruned (mrv_board st) (neighbors (mrv_board st !!! n)))
      with (domain_of (mrv_board st) n).
    rewrite (domain_of_ext _ b n Hcv Htop).
    set (b' := set_values (mrv_board st) n (domain_of b n)).
    assert (Hb'n : values (b' !!! n) = domain_of b n).
    { apply set_values_same. lia. }
    assert (Hb'v : ∀ k, values (b' !!! k) =
              if decide (k < S n ∧ cur_val (b !!! k) = 0%Z) then domain_of b k
              else values (b !!! k)).
    { intros k. destruct (decide (k = n)) as [->|Hne].
      - rewrite Hb'n. by rewrite decide_True by (split; [lia|done]).
      - unfold b'. rewrite set_values_other by done. rewrite Hvals.
        repeat case_decide; done || lia. }
    assert (Hb'a : ∀ k, assigned_neigh (b' !!! k) = assigned_neigh (b !!! k)).
    { intros k. unfold b'.
      destruct (topology_lookup _ _ k (set_values_topology (mrv_board st) n (domain_of b n)))
        as (_ & _ & ->).
      by destruct (topology_lookup _ _ k Htop) as (_ & _ & ->). }
    assert (Hframe : length b' = length b ∧ cur_vals b' = cur_vals b ∧
                     topology <$> b' = topology <$> b).
    { unfold b'. rewrite set_values_length, set_values_cur_vals, set_values_topology.
      done. }
    rewrite Hb'n.
    destruct (min_cell st) as [m|] eqn:Hm.
    + destruct Hmin as (Hmn & Hmz & Hml & Hpref).
      destruct (Nat.ltb_spec (length (domain_of b n)) (min_len st)) as [Hlt|Hge];
        [|destruct (Nat.eqb_spec (length (domain_of b n)) (min_len st)) as [Heq|Hneq]].
      * (* strictly smaller domain: the challenger is taken *)
        destruct Hframe as (? & ? & ?). unfold mrv_inv; cbn [mrv_board min_cell min_len];
          split_and!; try done; try lia.
        intros k Hk Hkz. destruct (decide (k = n)) as [->|Hne];
          [apply preferred_refl|].
        left. destruct (Hpref k ltac:(lia) Hkz) as [?|[? _]]; lia.
      * (* same size: the degree tie-break *)
        unfold degree. rewrite !Hb'a.
        destruct (Z.ltb_spec (assigned_neigh (b !!! m)) (assigned_neigh (b !!! n)))
          as [Ha|Ha].
        -- destruct Hframe as (? & ? & ?). rewrite Hb'n.
           unfold mrv_inv; cbn [mrv_board min_cell min_len];
          split_and!; try done; try lia.
           intros k Hk Hkz. destruct (decide (k = n)) as [->|Hne];
             [apply preferred_refl|].
           destruct (Hpref k ltac:(lia) Hkz) as [?|[? [?|[? ?]]]].
           ++ left. lia.
           ++ right. split; [lia|]. left. lia.
           ++ right. split; [lia|]. left. lia.
        -- destruct Hframe as (? & ? & ?). rewrite Hb'v.
           rewrite decide_True by (split; [lia|done]).
           unfold mrv_inv; cbn [mrv_board min_cell min_len];
          split_and!; try done; try lia.
           intros k Hk Hkz. destruct (decide (k = n)) as [->|Hne];
             [|apply Hpref; [lia|done]].
           right. split; [lia|]. destruct (decide (assigned_neigh (b !!! n)
             = assigned_neigh (b !!! m))); [right; split; [done|lia]|left; lia].
      * (* larger domain: the incumbent stays *)
        destruct Hframe as (? & ? & ?). unfold mrv_inv; cbn [mrv_board min_cell min_len];
          split_and!; try done; try lia.
        intros k Hk Hkz. destruct (decide (k = n)) as [->|Hne];
          [|apply Hpref; [lia|done]].
        left. lia.
    + destruct Hframe as (? & ? & ?). unfold mrv_inv; cbn [mrv_board min_cell min_len];
          split_and!; try done; try lia.
      intros k Hk Hkz. destruct (decide (k = n)) as [->|Hne];
        [apply preferred_refl|].
      exfalso. apply (Hmin k); [lia|done].
  - (* the cell is assigned: nothing happens *)
    split_and!; try done.
    + intros k. rewrite Hvals. destruct (decide (k = n)) as [->|Hne].
      * rewrite !decide_False; [done|tauto|intros [? ?]; lia].
      * destruct (decide (k < n ∧ cur_val (b !!! k) = 0%Z)) as [[? ?]|Hno].
        -- by rewrite decide_True by (split; [lia|done]).
        -- rewrite decide_False; [done|]. intros [? ?]. apply Hno. split; [lia|done].
    + destruct (min_cell st) as [m|].
      * destruct Hmin as (? & ? & ? & Hpref). split_and!; try done; [lia|].
        intros k Hk Hkz. apply Hpref; [|done].
        destruct (decide (k = n)) as [->|?]; [done|lia].
      * intros k Hk. destruct (decide (k = n)) as [->|?]; [done|].
        apply Hmin. lia.
Qed.

Lemma mrv_scan_inv b n :
  n ≤ length b → mrv_inv b n (foldl mrv_visit (mkMrv b 10 None) (seq 0 n)).
Proof.
  induction n as [|n IH]; intros Hn.
  - simpl. unfold mrv_inv; cbn [mrv_board min_cell min_len]. split_and!; try done.
    intros k Hk. lia.
  - rewrite seq_S, foldl_snoc. simpl. apply mrv_visit_inv; [lia|].
    apply IH. lia.
Qed.

Lemma find_less_poss_scan b :
  find_less_poss b =
  let st := foldl mrv_visit (mkMrv b 10 None) (seq 0 81) in
  (mrv_board st, min_cell st).
Proof.
  unfold find_less_poss. rewrite <-positions_refs, foldl_fmap. done.
Qed.

Lemma board_is_solved_spec b :
  board_is_solved b = true ↔ ∀ k, k < 81 → cur_val (b !!! k) ≠ 0%Z.
Proof.
  unfold board_is_solved. rewrite forallb_forall. split.
  - intros H k Hk.
    assert (k ∈ cell_ref <$> positions) as (p & -> & Hp)%list_elem_of_fmap.
    { rewrite positions_refs. apply elem_of_seq. lia. }
    apply list_elem_of_In, H, negb_true_iff, Z.eqb_neq in Hp. done.
  - intros H p Hp%list_elem_of_In. apply negb_true_iff, Z.eqb_neq, H.
    assert (cell_ref p ∈ seq 0 81) as ?%elem_of_seq; [|lia].
    rewrite <-positions_refs. by apply list_elem_of_fmap_2.
Qed.

Lemma board_is_solved_false b :
  board_is_solved b = false ↔ ∃ k, k < 81 ∧ cur_val (b !!! k) = 0%Z.
Proof.
  split.
  - intros Hs. destruct (decide (Exists (λ k, cur_val (b !!! k) = 0%Z) (seq 0 81)))
      as [(k & Hk%elem_of_seq & Hz)%Exists_exists|Hno].
    + exists k. split; [lia|done].
    + exfalso. apply not_true_iff_false in Hs. apply Hs.
      apply board_is_solved_spec. intros k Hk Hz. apply Hno, Exists_exists.
      exists k. split; [apply elem_of_seq; lia|done].
  - intros (k & Hk & Hz). apply not_true_iff_false.
    intros Hs. by apply (proj1 (board_is_solved_spec b) Hs k).
Qed.

(** What [find_less_poss] returns on a board with an unassigned cell. *)
Lemma find_less_poss_found b :
  board_shape b → (∃ k, k < 81 ∧ cur_val (b !!! k) = 0%Z) →
  ∃ b' m, find_less_poss b = (b', Some m) ∧ mrv_inv b 81 (mkMrv b' (length (domain_of b m)) (Some m)).
Proof.
  intros Hb (k & Hk & Hz). rewrite find_less_poss_scan. cbv zeta.
  assert (Hinv := mrv_scan_inv b 81). rewrite Hb in Hinv. specialize (Hinv (le_n _)).
  destruct (foldl mrv_visit _ _) as [b' len found]. exists b'.
  destruct found as [m|].
  - exists m. split; [done|]. destruct Hinv as (? & ? & ? & ? & ? & ? & Hl & ?).
    cbn in Hl. by rewrite <-Hl.
  - destruct Hinv as (_ & _ & _ & _ & Hnone). cbn in Hnone. by destruct (Hnone k).
Qed.
End variable_selection.

(** C4.  On a board with an unassigned cell [find_less_poss] gives every
    unassigned cell the domain computed by [initial_values] and returns an
    unassigned cell whose refreshed domain is of minimal size; among the
    unassigned cells of that minimal size the returned one has the largest
    [assigned_neigh], and is the first such cell of the scan: a later
    challenger replaces the incumbent only with a strictly larger count. *)
Theorem find_less_poss_selects (b : Board) :
  board_shape b →
  (∃ k, k < 81 ∧ cur_val (b !!! k) = 0%Z) →
  ∃ b' m,
    find_less_poss b = (b', Some m) ∧
    m < 81 ∧ cur_val (b !!! m) = 0%Z ∧
    cur_vals b' = cur_vals b ∧ topology <$> b' = topology <$> b ∧
    (∀ k, k < 81 →
       values (b' !!! k) =
       if decide (cur_val (b !!! k) = 0%Z)
       then (initial_values b (neighbors (b !!! k)) k).2
       else values (b !!! k)) ∧
    (∀ k, k < 81 → cur_val (b !!! k) = 0%Z →
       length (values (b' !!! m)) ≤ length (values (b' !!! k)) ∧
       (length (values (b' !!! k)) = length (values (b' !!! m)) →
        (assigned_neigh (b !!! k) ≤ assigned_neigh (b !!! m))%Z ∧
        (assigned_neigh (b !!! k) = assigned_neigh (b !!! m) → m ≤ k))).
Proof.
  intros Hb Hex. destruct (find_less_poss_found b Hb Hex) as (b' & m & Hf & Hinv).
  destruct Hinv as (_ & Hcv & Htop & Hvals & Hm & Hmz & _ & Hpref).
  cbn [mrv_board min_cell min_len] in *.
  exists b', m. split_and!; try done.
  - intros k Hk. rewrite Hvals. destruct (decide (cur_val (b !!! k) = 0%Z)).
    + by rewrite decide_True.
    + rewrite decide_False; [done|]. tauto.
  - intros k Hk Hz. rewrite !Hvals.
    rewrite !decide_True by done.
    destruct (Hpref k Hk Hz) as [?|[? [?|[? ?]]]]; split; lia.
Qed.

(** ** The search *)

Section search.
Implicit Types (b bs m : Board) (c k n d : nat) (i v : Z) (vs : list Z).

Lemma cur_val_lookup b k : cur_val (b !!! k) = default 0%Z (cur_vals b !! k).
Proof.
  unfold cur_vals. rewrite list_lookup_fmap, list_lookup_total_alt.
  by destruct (b !! k).
Qed.

Lemma cur_vals_set_current b c v : cur_vals (set_current b c v) = <[c := v]> (cur_vals b).
Proof.
  unfold cur_vals, set_current. revert c.
  induction b as [|x b IH]; intros [|c]; csimpl; f_equal; auto.
Qed.

Lemma cur_vals_length b : length (cur_vals b) = length b.
Proof. apply length_fmap. Qed.

Lemma cur_vals_unassigned b c :
  c < length b → cur_val (b !!! c) = 0%Z → cur_vals b !! c = Some 0%Z.
Proof.
  intros Hc Hz. rewrite cur_val_lookup in Hz.
  destruct (lookup_lt_is_Some_2 (cur_vals b) c) as [v Hv];
    [by rewrite cur_vals_length|].
  rewrite Hv in Hz. simpl in Hz. by subst.
Qed.

Lemma count_zero_insert (l : list Z) c i :
  l !! c = Some 0%Z → i ≠ 0%Z →
  S (length (filter (λ v, v = 0%Z) (<[c := i]> l))) = length (filter (λ v, v = 0%Z) l).
Proof.
  revert c. induction l as [|x l IH]; intros [|c] Hc Hi; try done.
  - injection Hc as ->. change (<[0:=i]> (0%Z :: l)) with (i :: l).
    rewrite !filter_cons. rewrite decide_False by done. by rewrite decide_True.
  - change (<[S c:=i]> (x :: l)) with (x :: <[c:=i]> l).
    rewrite !filter_cons. case_decide; simpl; rewrite <-(IH c); done.
Qed.

Lemma unassigned_zero b :
  unassigned b = 0 ↔ ∀ k, k < length b → cur_val (b !!! k) ≠ 0%Z.
Proof.
  unfold unassigned. split.
  - intros Hlen k Hk Hz. apply cur_vals_unassigned in Hz; [|done].
    apply list_elem_of_lookup_2 in Hz.
    assert (H : 0%Z ∈ filter (λ v, v = 0%Z) (cur_vals b)).
    { by apply list_elem_of_filter. }
    destruct (filter _ _); [by apply elem_of_nil in H|done].
  - intros H. destruct (filter _ _) as [|x l] eqn:E; [done|]. exfalso.
    assert (Hx : x ∈ filter (λ v, v = 0%Z) (cur_vals b)) by (rewrite E; left).
    apply list_elem_of_filter in Hx as [-> (k & Hk)%list_elem_of_lookup_1].
    apply (H k).
    + rewrite <-cur_vals_length. by eapply lookup_lt_Some.
    + by rewrite cur_val_lookup, Hk.
Qed.

Lemma solved_unassigned b :
  board_shape b → board_is_solved b = true → unassigned b = 0.
Proof.
  intros Hb Hs. apply unassigned_zero. rewrite Hb.
  by apply board_is_solved_spec.
Qed.

Lemma frame_refl b : frame b b.
Proof. by split_and!. Qed.

Lemma frame_trans b m m' : frame b m → frame m m' → frame b m'.
Proof.
  intros (? & ? & H1) (? & ? & H2). split_and!; [congruence..|].
  intros k Hk. rewrite H2; rewrite H1; done.
Qed.

Lemma frame_same b m :
  length m = length b → topology <$> m = topology <$> b →
  cur_vals m = cur_vals b → frame b m.
Proof.
  intros ? ? E. split_and!; [done..|]. intros k _. by apply cur_vals_lookup.
Qed.

Lemma loop_state_other b c bs k :
  loop_state b c bs → k ≠ c → cur_val (bs !!! k) = cur_val (b !!! k).
Proof.
  intros (_ & _ & x & E) Hk. rewrite !cur_val_lookup, E.
  by rewrite list_lookup_insert_ne.
Qed.

Lemma loop_state_neighbors b c bs k :
  loop_state b c bs → neighbors (bs !!! k) = neighbors (b !!! k).
Proof. intros (_ & Ht & _). by destruct (topology_lookup _ _ k Ht) as (_ & ? & _). Qed.

Lemma loop_state_assign b c bs i :
  loop_state b c bs → loop_state b c (set_current bs c i).
Proof.
  intros (? & ? & x & E). split_and!.
  - by rewrite set_current_length.
  - by rewrite set_current_topology.
  - exists i. by rewrite cur_vals_set_current, E, list_insert_insert_eq.
Qed.

Lemma loop_state_frame b c bs :
  cur_val (b !!! c) = 0%Z → loop_state b c bs → frame b bs.
Proof.
  intros Hz Hl. split_and!; [apply Hl..|]. intros k Hk.
  apply (loop_state_other b c); [done|]. by intros ->.
Qed.

Lemma loop_state_unassigned b c bs i :
  c < length b → cur_val (b !!! c) = 0%Z → i ≠ 0%Z →
  loop_state b c bs → S (unassigned (set_current bs c i)) = unassigned b.
Proof.
  intros Hc Hz Hi (_ & _ & x & E). unfold unassigned.
  rewrite cur_vals_set_current, E, list_insert_insert_eq.
  apply count_zero_insert; [|done]. by apply cur_vals_unassigned.
Qed.

Lemma loop_state_reset b c bs :
  c < length b → cur_val (b !!! c) = 0%Z →
  loop_state b c bs → cur_vals (set_current bs c 0) = cur_vals b.
Proof.
  intros Hc Hz (_ & _ & x & E).
  rewrite cur_vals_set_current, E, list_insert_insert_eq.
  apply list_insert_id. by apply cur_vals_unassigned.
Qed.

Lemma is_allowed_spec b c i :
  is_allowed b c i = true ↔ ∀ n, n ∈ neighbors (b !!! c) → cur_val (b !!! n) ≠ i.
Proof.
  unfold is_allowed. rewrite forallb_forall. split.
  - intros H n Hn%list_elem_of_In. by apply H, negb_true_iff, Z.eqb_neq in Hn.
  - intros H n Hn%list_elem_of_In. by apply negb_true_iff, Z.eqb_neq, H.
Qed.

Lemma symmetric_ext b m :
  length m = length b → topology <$> m = topology <$> b →
  symmetric b → symmetric m.
Proof.
  intros Hlen Ht Hs k n Hk Hn. rewrite Hlen in *.
  destruct (topology_lookup _ _ k Ht) as (_ & Ek & _).
  destruct (topology_lookup _ _ n Ht) as (_ & En & _).
  rewrite Ek in Hn. rewrite En. by apply Hs.
Qed.

Lemma consistent_ext b m :
  length m = length b → topology <$> m = topology <$> b →
  cur_vals m = cur_vals b → consistent b → consistent m.
Proof.
  intros Hlen Ht Hv Hc k Hk Hz. rewrite Hlen in Hk.
  rewrite (cur_vals_lookup _ _ k Hv) in *.
  destruct (Hc k Hk Hz) as [Hr Hn]. split; [done|].
  intros n Hin. rewrite (cur_vals_lookup _ _ n Hv).
  destruct (topology_lookup _ _ k Ht) as (_ & Ek & _). rewrite Ek in Hin.
  by apply Hn.
Qed.

(** Assigning an allowed value of 1..9 to the selected cell keeps the
    assignment free of conflicts. *)
Lemma consistent_assign b c bs i :
  symmetric b → consistent b → c < length b → cur_val (b !!! c) = 0%Z →
  loop_state b c bs → (1 ≤ i ≤ 9)%Z → is_allowed bs c i = true →
  consistent (set_current bs c i).
Proof.
  intros Hsym Hcons Hc Hz Hl Hi Hallow.
  assert (Hlen : length bs = length b) by apply Hl.
  rewrite is_allowed_spec in Hallow. rewrite (loop_state_neighbors b c) in Hallow by done.
  intros k Hk Hnz. rewrite set_current_length, Hlen in Hk.
  rewrite set_current_neighbors, (loop_state_neighbors b c) by done.
  destruct (decide (k = c)) as [->|Hkc].
  - rewrite set_current_same by lia. split; [done|].
    intros n Hn. destruct (Hsym c n Hc Hn) as (_ & Hnc & _).
    rewrite set_current_other by done. by apply Hallow.
  - rewrite set_current_other in * by done.
    rewrite (loop_state_other b c) in * by done.
    destruct (Hcons k Hk Hnz) as [Hr Hnb]. split; [done|].
    intros n Hn. destruct (decide (n = c)) as [->|Hnc].
    + rewrite set_current_same by lia.
      destruct (Hsym k c Hk Hn) as (_ & _ & Hkin).
      specialize (Hallow k Hkin). rewrite (loop_state_other b c) in Hallow by done.
      done.
    + rewrite set_current_other by done.
      rewrite (loop_state_other b c) by done. by apply Hnb.
Qed.

(** The loop over the candidates, given what the nested activations do. *)
Lemma try_values_post d b c vs bs :
  (∀ b1, board_shape b1 → search_post d b1 (backtrack_with_min_val d b1)) →
  board_shape b → c < 81 → cur_val (b !!! c) = 0%Z →
  Forall (λ i, (1 ≤ i ≤ 9)%Z) vs →
  loop_state b c bs →
  search_post (S d) b (try_values (backtrack_with_min_val d) c vs bs).
Proof.
  intros IHd Hb Hc Hz Hvs. revert bs.
  induction Hvs as [|i vs Hi Hvs IH]; intros bs Hl.
  - (* candidates exhausted: the cell is reset *)
    cbn [try_values]. cbv zeta.
    assert (Hf : frame b (set_current bs c 0)).
    { apply frame_same.
      - rewrite set_current_length. apply Hl.
      - rewrite set_current_topology. apply Hl.
      - apply loop_state_reset; [rewrite Hb; lia|done..]. }
    split; cbn [fst snd].
    + by apply Forall_singleton.
    + split; [done|]. apply loop_state_reset; [rewrite Hb; lia|done..].
  - cbn [try_values]. destruct (is_allowed bs c i) eqn:Hallow; [|by apply IH].
    cbv zeta.
    assert (Hl1 : loop_state b c (set_current bs c i)) by by apply loop_state_assign.
    assert (Hf1 : frame b (set_current bs c i)) by by apply (loop_state_frame b c).
    assert (Hb1 : board_shape (set_current bs c i)).
    { unfold board_shape. rewrite set_current_length.
      destruct Hl as (-> & _). done. }
    assert (Hu : S (unassigned (set_current bs c i)) = unassigned b).
    { apply loop_state_unassigned; [rewrite Hb; lia|done|lia|done]. }
    specialize (IHd _ Hb1).
    destruct (backtrack_with_min_val d (set_current bs c i)) as [log r].
    destruct IHd as [Hlog Hr]. cbn [fst snd] in Hlog, Hr.
    assert (Hlog' : Forall (frame b) (set_current bs c i :: log)).
    { constructor; [done|]. eapply Forall_impl; [exact Hlog|].
      intros m Hm. by eapply frame_trans. }
    destruct r as [[|] b2| |].
    + (* success is propagated *)
      destruct Hr as (Hf2 & Hu2 & Hcons). split; cbn [fst snd]; [done|].
      split; [by eapply frame_trans|]. split; [done|].
      intros Hsym Hcb. apply Hcons.
      * eapply symmetric_ext; [| |exact Hsym]; apply Hf1.
      * apply (consistent_assign b); try done. rewrite Hb; lia.
    + (* failure: the next candidate is tried from the restored store *)
      destruct Hr as (Hf2 & Hv2).
      assert (Hl2 : loop_state b c b2).
      { destruct Hf2 as (Hlen2 & Ht2 & _). destruct Hl1 as (Hlen1 & Ht1 & x & Ex).
        split_and!; [congruence..|]. exists x. congruence. }
      specialize (IH b2 Hl2).
      destruct (try_values (backtrack_with_min_val d) c vs b2) as [log' r'].
      destruct IH as [Hlog2 Hr']. cbn [fst snd] in Hlog2, Hr'.
      split; cbn [fst snd]; [|done].
      rewrite app_comm_cons. by apply Forall_app.
    + done.
    + split; cbn [fst snd]; [done|]. lia.
Qed.

(** What every activation of the search does on a board of 81 cells. *)
Lemma backtrack_post d b :
  board_shape b → search_post d b (backtrack_with_min_val d b).
Proof.
  revert b. induction d as [|d IHd]; intros b Hb.
  - split; cbn; [done|lia].
  - destruct (board_is_solved b) eqn:Hs.
    + cbn [backtrack_with_min_val]. rewrite Hs. split; cbn [fst snd]; [done|].
      split; [apply frame_refl|]. split; [by apply solved_unassigned|done].
    + destruct (find_less_poss_found b Hb) as (b1 & c & Hf & Hinv);
        [by apply board_is_solved_false|].
      destruct Hinv as (Hlen1 & Hcv1 & Htop1 & _ & Hc & Hz & _).
      cbn [mrv_board min_cell min_len] in *.
      rewrite (backtrack_with_min_val_step d b b1 c Hs Hf). cbv zeta.
      unfold initial_values. cbn [fst].
      set (b2 := set_values b1 c (pruned b1 (neighbors (b1 !!! c)))).
      assert (Hlen2 : length b2 = length b).
      { unfold b2. by rewrite set_values_length. }
      assert (Hcv2 : cur_vals b2 = cur_vals b).
      { unfold b2. by rewrite set_values_cur_vals. }
      assert (Htop2 : topology <$> b2 = topology <$> b).
      { unfold b2. by rewrite set_values_topology. }
      case_bool_decide as Hempty.
      * split; cbn [fst snd]; [done|]. split; [by apply frame_same|done].
      * apply try_values_post; try done.
        -- apply Forall_forall. intros i Hi.
           rewrite ordered_values_perm in Hi. unfold b2 in Hi.
           rewrite set_values_same in Hi by (rewrite Hlen1, Hb; lia).
           by apply elem_of_pruned in Hi as [? _].
        -- split_and!; [done..|]. exists 0%Z. rewrite Hcv2. symmetry.
           apply list_insert_id, cur_vals_unassigned; [rewrite Hb; lia|done].
Qed.
End search.

(** ** The constraint graph *)

Section graph.
Implicit Types (b : Board) (k n : nat) (p : nat * nat).

Lemma peer_graph_length : length peer_graph = 81.
Proof. reflexivity. Qed.

(** The table of neighbor lists, checked entry by entry. *)
Lemma peer_graph_entries :
  Forall (λ k,
    length (peer_graph !!! k) = 20 ∧ NoDup (peer_graph !!! k) ∧
    Forall (λ n, n ∈ peer_graph !!! k ↔ peers k n = true) (seq 0 81) ∧
    Forall (λ n, n < 81 ∧ n ≠ k ∧ k ∈ peer_graph !!! n) (peer_graph !!! k))
    (seq 0 81).
Proof. apply (bool_decide_unpack _). by vm_compute. Qed.


(** What [find_neighbors] computes for the identifier of each position. *)
Lemma link_table :
  Forall (λ p,
    (r ← int_of_char (char_at (id (new_Board !!! cell_ref p)) 1);
     c ← int_of_char (char_at (id (new_Board !!! cell_ref p)) 2);
     getitem (r - 1) (c - 1)) = Ok (cell_ref p) ∧
    (foldl (scan_step new_Board (char_at (id (new_Board !!! cell_ref p)) 0)
              (char_at (id (new_Board !!! cell_ref p)) 1)
              (char_at (id (new_Board !!! cell_ref p)) 2))
           ([], 0%Z) positions).1 = peer_graph !!! cell_ref p)
    positions.
Proof. apply (bool_decide_unpack _). by vm_compute. Qed.

Lemma overwrite_all (l : list (list nat)) :
  length l = 81 →
  foldl (λ l p, <[cell_ref p := peer_graph !!! cell_ref p]> l) l positions = peer_graph.
Proof.
  intros Hl.
  do 81 (destruct l as [|? l]; [discriminate Hl|]).
  destruct l; [|discriminate Hl]. vm_compute. reflexivity.
Qed.

Lemma new_Board_ids : id <$> new_Board = board_ids.
Proof. reflexivity. Qed.

#[local] Opaque peer_graph new_Board positions.

Lemma topology_fmaps b b' :
  topology <$> b = topology <$> b' →
  id <$> b = id <$> b' ∧ neighbors <$> b = neighbors <$> b'.
Proof.
  intros E. split.
  - change id with ((λ t : pystr * list nat * Z, t.1.1) ∘ topology).
    by rewrite !(list_fmap_compose topology), E.
  - change neighbors with ((λ t : pystr * list nat * Z, t.1.2) ∘ topology).
    by rewrite !(list_fmap_compose topology), E.
Qed.

Lemma set_neighbors_ids b k ns a : id <$> set_neighbors b k ns a = id <$> b.
Proof. by apply fmap_alter_unchanged. Qed.

Lemma set_neighbors_cur_vals b k ns a : cur_vals (set_neighbors b k ns a) = cur_vals b.
Proof. by apply fmap_alter_unchanged. Qed.

Lemma set_neighbors_length b k ns a : length (set_neighbors b k ns a) = length b.
Proof. apply length_alter. Qed.

Lemma set_neighbors_neighbors b k ns a :
  neighbors <$> set_neighbors b k ns a = <[k := ns]> (neighbors <$> b).
Proof.
  unfold set_neighbors. revert k.
  induction b as [|x b IH]; intros [|k]; csimpl; f_equal; auto.
Qed.

(** The list of neighbors found by the scan depends on the identifiers of
    the cells only. *)
Lemma scan_ids b b' (box row col : N) acc acc' (ps : list (nat * nat)) :
  id <$> b = id <$> b' → acc.1 = acc'.1 →
  (foldl (scan_step b box row col) acc ps).1 =
  (foldl (scan_step b' box row col) acc' ps).1.
Proof.
  intros E. revert acc acc'. induction ps as [|p ps IH]; intros acc acc' Ha; [done|].
  simpl. apply IH. unfold scan_step.
  rewrite (fmap_lookup_total id b b' _ E).
  repeat case_match; simpl; congruence.
Qed.

Lemma find_neighbors_linked b p :
  id <$> b = board_ids → p ∈ positions →
  ∃ a, find_neighbors b (char_at (id (b !!! cell_ref p)) 0)
                        (char_at (id (b !!! cell_ref p)) 1)
                        (char_at (id (b !!! cell_ref p)) 2) =
       Ok (set_neighbors b (cell_ref p) (peer_graph !!! cell_ref p) a,
           peer_graph !!! cell_ref p).
Proof.
  intros E Hp.
  assert (E' : id <$> b = id <$> new_Board) by (by rewrite new_Board_ids).
  rewrite (fmap_lookup_total id b new_Board _ E').
  destruct (proj1 (Forall_forall _ _) link_table p Hp) as [Hcell Hscan].
  unfold find_neighbors. cbv zeta.
  rewrite (scan_ids b new_Board _ _ _ ([], 0%Z) ([], 0%Z) positions E' eq_refl).
  revert Hcell Hscan.
  generalize (foldl (scan_step new_Board (char_at (id (new_Board !!! cell_ref p)) 0)
    (char_at (id (new_Board !!! cell_ref p)) 1)
    (char_at (id (new_Board !!! cell_ref p)) 2)) ([], 0%Z) positions).
  generalize (char_at (id (new_Board !!! cell_ref p)) 0).
  generalize (char_at (id (new_Board !!! cell_ref p)) 1).
  generalize (char_at (id (new_Board !!! cell_ref p)) 2).
  intros col row box found.
  destruct (int_of_char row) as [r|]; [|intros H; discriminate H].
  destruct (int_of_char col) as [c|]; [|intros H; discriminate H].
  unfold mbind, result_bind. intros -> ->. eexists. reflexivity.
Qed.

(** Any loop over positions whose body links the visited cell and leaves
    the other neighbor lists alone. *)
Lemma for_each_linked (step : Board → nat * nat → result Board) :
  (∀ b p b1, id <$> b = board_ids → p ∈ positions → step b p = Ok b1 →
     id <$> b1 = board_ids ∧
     neighbors <$> b1 = <[cell_ref p := peer_graph !!! cell_ref p]> (neighbors <$> b)) →
  ∀ ps b b', (∀ p, p ∈ ps → p ∈ positions) → id <$> b = board_ids →
    for_each step b ps = Ok b' →
    id <$> b' = board_ids ∧
    neighbors <$> b' =
      foldl (λ l p, <[cell_ref p := peer_graph !!! cell_ref p]> l) (neighbors <$> b) ps.
Proof.
  intros Hstep ps. induction ps as [|p ps IH]; intros b b' Hps Hid Hrun.
  - by injection Hrun as <-.
  - cbn [for_each] in Hrun. unfold mbind, result_bind in Hrun.
    destruct (step b p) as [b1|] eqn:E; [|discriminate Hrun].
    destruct (Hstep b p b1 Hid) as [Hid1 Hn1]; [apply Hps; left|done|].
    destruct (IH b1 b') as [? Hn]; [intros; apply Hps; by right|done..|].
    split; [done|]. simpl. by rewrite <-Hn1.
Qed.

Lemma link_step_returns b p :
  id <$> b = board_ids → p ∈ positions →
  ∃ a, link_step b p =
       Ok (set_neighbors b (cell_ref p) (peer_graph !!! cell_ref p) a).
Proof.
  intros Hid Hp. unfold link_step. cbv zeta.
  destruct (find_neighbors_linked b p Hid Hp) as [a ->]. by exists a.
Qed.

Lemma link_step_linked b p b1 :
  id <$> b = board_ids → p ∈ positions → link_step b p = Ok b1 →
  id <$> b1 = board_ids ∧
  neighbors <$> b1 = <[cell_ref p := peer_graph !!! cell_ref p]> (neighbors <$> b).
Proof.
  intros Hid Hp. destruct (link_step_returns b p Hid Hp) as [a ->].
  intros [= <-]. by rewrite set_neighbors_ids, set_neighbors_neighbors.
Qed.

Lemma link_steps_return (ps : list (nat * nat)) b :
  (∀ p, p ∈ ps → p ∈ positions) → id <$> b = board_ids →
  ∃ b', for_each link_step b ps = Ok b' ∧ cur_vals b' = cur_vals b.
Proof.
  revert b. induction ps as [|p ps IH]; intros b Hps Hid; [by exists b|].
  cbn [for_each].
  destruct (link_step_returns b p Hid) as [a ->]; [apply Hps; left|].
  unfold mbind, result_bind.
  destruct (IH (set_neighbors b (cell_ref p) (peer_graph !!! cell_ref p) a))
    as (b' & -> & Hv).
  - intros; apply Hps; by right.
  - by rewrite set_neighbors_ids.
  - exists b'. split; [done|]. by rewrite Hv, set_neighbors_cur_vals.
Qed.

Lemma ids_shape b : id <$> b = board_ids → board_shape b.
Proof. intros E. unfold board_shape. by rewrite <-(length_fmap id), E. Qed.

Lemma link_all_linked b :
  id <$> b = board_ids →
  ∃ b', link_all b = Ok b' ∧ linked b' ∧ id <$> b' = board_ids ∧
        cur_vals b' = cur_vals b.
Proof.
  intros Hid. destruct (link_steps_return positions b) as (b' & Hrun & Hv); [done..|].
  exists b'. split; [done|].
  destruct (for_each_linked link_step link_step_linked positions b b') as [Hid' Hn];
    [done..|].
  split_and!; [|done..]. unfold linked. rewrite Hn. apply overwrite_all.
  rewrite length_fmap. by apply ids_shape.
Qed.

Lemma setup_step_linked puzzle b p b1 :
  id <$> b = board_ids → p ∈ positions → setup_step puzzle b p = Ok b1 →
  id <$> b1 = board_ids ∧
  neighbors <$> b1 = <[cell_ref p := peer_graph !!! cell_ref p]> (neighbors <$> b).
Proof.
  intros Hid Hp. unfold setup_step. cbv zeta.
  destruct (find_neighbors_linked b p Hid Hp) as [a ->].
  unfold mbind, result_bind; cbn [fst snd].
  set (bl := set_neighbors b (cell_ref p) (peer_graph !!! cell_ref p) a).
  destruct (fill_initial_board bl puzzle) as [bf|] eqn:Hfill; [|intros H; discriminate H].
  unfold initial_values; cbn [fst snd]. intros [= <-].
  apply fill_from_returns in Hfill as (_ & Ht & _).
  2:{ apply ids_shape. unfold bl. by rewrite set_neighbors_ids. }
  assert (Ht' : topology <$> set_values bf (cell_ref p)
                  (pruned bf (peer_graph !!! cell_ref p)) = topology <$> bl).
  { by rewrite set_values_topology. }
  apply topology_fmaps in Ht' as [-> ->]. unfold bl.
  by rewrite set_neighbors_ids, set_neighbors_neighbors.
Qed.

(** The board that [main] hands to the search is linked. *)
Lemma setup_linked puzzle b :
  setup puzzle = Ok b → linked b ∧ id <$> b = board_ids.
Proof.
  intros Hrun.
  destruct (for_each_linked (setup_step puzzle) (setup_step_linked puzzle)
              positions new_Board b) as [Hid Hn]; [done..|].
  split; [|done]. unfold linked. rewrite Hn. by apply overwrite_all.
Qed.

Lemma linked_neighbors b k :
  linked b → k < 81 → neighbors (b !!! k) = peer_graph !!! k.
Proof.
  intros Hl _. unfold linked in Hl. rewrite <-Hl.
  rewrite !list_lookup_total_alt, list_lookup_fmap. by destruct (b !! k).
Qed.

Lemma linked_shape b : linked b → board_shape b.
Proof.
  intros Hl. unfold board_shape.
  by rewrite <-(length_fmap neighbors), Hl, peer_graph_length.
Qed.

Lemma linked_symmetric b : linked b → symmetric b.
Proof.
  intros Hl k n Hk Hn. rewrite (linked_shape b Hl) in *.
  rewrite linked_neighbors in Hn by done.
  assert (Hk' : k ∈ seq 0 81) by (apply elem_of_seq; lia).
  destruct (proj1 (Forall_forall _ _) peer_graph_entries k Hk') as (_ & _ & _ & Hall).
  destruct (proj1 (Forall_forall _ _) Hall n Hn) as (? & ? & ?).
  split_and!; [done..|]. by rewrite linked_neighbors.
Qed.
End graph.

(** ** Solved grids *)

Section solved.
Implicit Types (b : Board) (k n : nat) (u : list nat) (v : Z).





Lemma consistent_forall b :
  Forall (λ k, cur_val (b !!! k) ≠ 0%Z →
               (1 ≤ cur_val (b !!! k) ≤ 9)%Z ∧
               Forall (λ n, cur_val (b !!! n) ≠ cur_val (b !!! k)) (neighbors (b !!! k)))
         (seq 0 (length b)) →
  consistent b.
Proof.
  intros H k Hk Hz. rewrite Forall_forall in H.
  destruct (H k) as [Hr Hn]; [apply elem_of_seq; lia|done|].
  split; [done|]. by apply Forall_forall.
Qed.

Lemma find_less_poss_some b b1 c :
  board_shape b → find_less_poss b = (b1, Some c) →
  c < 81 ∧ cur_val (b !!! c) = 0%Z.
Proof.
  intros Hb. rewrite find_less_poss_scan. cbv zeta.
  assert (Hinv := mrv_scan_inv b 81). rewrite Hb in Hinv. specialize (Hinv (le_n _)).
  destruct (foldl mrv_visit _ _) as [b' len found]. intros [= <- ->].
  destruct Hinv as (_ & _ & _ & _ & ? & ? & _). done.
Qed.

Lemma unassigned_bound b : unassigned b ≤ length b.
Proof.
  unfold unassigned. rewrite <-cur_vals_length. apply length_filter.
Qed.

(** With a depth budget above the number of unassigned cells the search
    returns. *)
Lemma backtrack_returns b depth :
  board_shape b → unassigned b < depth →
  ∃ sol b', (backtrack_with_min_val depth b).2 = Return sol b'.
Proof.
  intros Hb Hd. destruct (backtrack_post depth b Hb) as [_ Hr].
  destruct (backtrack_with_min_val depth b).2 as [sol b'| |]; [by eauto|done|lia].
Qed.

Lemma backtrack_no_raise b depth e :
  board_shape b → (backtrack_with_min_val depth b).2 ≠ Raised e.
Proof.
  intros Hb. destruct (backtrack_post depth b Hb) as [_ Hr].
  by destruct (backtrack_with_min_val depth b).2.
Qed.
End solved.

(** ** The search: termination, failure, clues *)

(** C8.  On every board the search terminates: the number of unassigned
    cells is at most 81, a depth budget of one plus that number (hence 82) is
    enough for the call to return, because a nested call is made only after
    a value of 1..9 has been put in a cell that was unassigned at entry,
    which leaves one unassigned cell less. *)
Theorem search_terminates_within_depth (b : Board) :
  board_shape b →
  unassigned b ≤ 81 ∧
  (∀ depth, unassigned b < depth →
     ∃ sol b', (backtrack_with_min_val depth b).2 = Return sol b') ∧
  (∃ sol b', (backtrack_with_min_val (S (unassigned b)) b).2 = Return sol b') ∧
  (∃ sol b', (backtrack_with_min_val 82 b).2 = Return sol b') ∧
  (∀ c bs i, c < 81 → cur_val (b !!! c) = 0%Z → loop_state b c bs → (1 ≤ i ≤ 9)%Z →
     S (unassigned (set_current bs c i)) = unassigned b).
Proof.
  intros Hb. assert (Hu : unassigned b ≤ 81).
  { rewrite <-Hb. apply unassigned_bound. }
  split_and!; [done|..].
  - intros depth Hd. by apply backtrack_returns.
  - apply backtrack_returns; [done|lia].
  - apply backtrack_returns; [done|lia].
  - intros c bs i Hc Hz Hl Hi. apply (loop_state_unassigned b c); [|done|lia|done].
    rewrite Hb. lia.
Qed.

Lemma search_terminates_within_depth_witness :
  ∃ sol b', (backtrack_with_min_val 82 (board_of sample_puzzle)).2 = Return sol b'.
Proof.
  assert (Hb : board_shape (board_of sample_puzzle)) by (by vm_compute).
  exact (proj1 (proj2 (proj2 (proj2
           (search_terminates_within_depth (board_of sample_puzzle) Hb))))).
Defined.

(** C2.  A call of the search never raises; with a sufficient depth budget
    it returns; and when it returns False the current values of all cells
    are those at entry: in particular the selected cell is 0 again. *)
Theorem failure_restores_board (b : Board) (depth : nat) :
  board_shape b →
  (∀ e, (backtrack_with_min_val depth b).2 ≠ Raised e) ∧
  (unassigned b < depth →
     ∃ sol b', (backtrack_with_min_val depth b).2 = Return sol b') ∧
  (∀ b', (backtrack_with_min_val depth b).2 = Return false b' →
     cur_vals b' = cur_vals b ∧
     ∀ b1 c, find_less_poss b = (b1, Some c) → cur_val (b' !!! c) = 0%Z).
Proof.
  intros Hb. split_and!.
  - intros e. by apply backtrack_no_raise.
  - by apply backtrack_returns.
  - intros b' Hr. destruct (backtrack_post depth b Hb) as [_ Hpost].
    rewrite Hr in Hpost. destruct Hpost as [_ Hv]. split; [done|].
    intros b1 c Hf. rewrite (cur_vals_lookup _ _ c Hv).
    by apply (find_less_poss_some b b1 c).
Qed.

Lemma failure_restores_board_witness :
  let b := board_of stuck_puzzle in
  let b' := final_board (backtrack_with_min_val 82 b).2 in
  (backtrack_with_min_val 82 b).2 = Return false b' ∧
  cur_vals b' = cur_vals b ∧
  length (backtrack_with_min_val 82 b).1 = 7.
Proof.
  intros b b'.
  assert (Hb : board_shape b) by (by vm_compute).
  assert (Hr : (backtrack_with_min_val 82 b).2 = Return false b') by (by vm_compute).
  split; [exact Hr|]. split; [|by vm_compute].
  exact (proj1 (proj2 (proj2 (failure_restores_board b 82 Hb)) b' Hr)).
Defined.

(** C6.  After [fill_initial_board] every cell that holds a nonzero value
    (in particular every cell whose symbol in the clue string is a digit
    1..9, which holds that digit) keeps it in every store the search
    produces and in the store it leaves, whether it returns True or False;
    the cell the search selects is one whose current value is 0. *)
Theorem clues_are_preserved
    (b0 : Board) (str_board : pystr) (b : Board) (depth : nat) :
  board_shape b0 →
  fill_initial_board b0 str_board = Ok b →
  (∀ k, cur_val (b !!! k) ≠ 0%Z →
     Forall (λ m, cur_val (m !!! k) = cur_val (b !!! k))
            (backtrack_with_min_val depth b).1 ∧
     ∀ sol b', (backtrack_with_min_val depth b).2 = Return sol b' →
               cur_val (b' !!! k) = cur_val (b !!! k)) ∧
  (∀ k d, clue_at str_board k = Some d → d ≠ 0%Z →
     cur_val (b !!! k) = d ∧
     Forall (λ m, cur_val (m !!! k) = d) (backtrack_with_min_val depth b).1 ∧
     ∀ sol b', (backtrack_with_min_val depth b).2 = Return sol b' →
               cur_val (b' !!! k) = d) ∧
  (∀ b1 c, find_less_poss b = (b1, Some c) → cur_val (b !!! c) = 0%Z).
Proof.
  intros Hb0 Hfill.
  destruct (fill_from_returns b0 0 _ b Hb0 Hfill) as (Hb & _ & _ & Hv).
  assert (Hkeep : ∀ k, cur_val (b !!! k) ≠ 0%Z →
     Forall (λ m, cur_val (m !!! k) = cur_val (b !!! k))
            (backtrack_with_min_val depth b).1 ∧
     ∀ sol b', (backtrack_with_min_val depth b).2 = Return sol b' →
               cur_val (b' !!! k) = cur_val (b !!! k)).
  { intros k Hk. destruct (backtrack_post depth b Hb) as [Hlog Hr]. split.
    - eapply Forall_impl; [exact Hlog|]. intros m (_ & _ & Hm). by apply Hm.
    - intros sol b' E. rewrite E in Hr. destruct Hr as [(_ & _ & Hm) _]. by apply Hm. }
  split_and!; [done| |].
  - intros k d Hclue Hd.
    assert (Hkd : cur_val (b !!! k) = d).
    { rewrite Hv. unfold filled_value, clue_at in *.
      rewrite decide_True by lia. rewrite Nat.sub_0_r, Hclue. done. }
    destruct (Hkeep k) as [H1 H2]; [by rewrite Hkd|]. rewrite Hkd in H1, H2. done.
  - intros b1 c Hf. by apply (find_less_poss_some b b1 c).
Qed.

Lemma clues_are_preserved_witness :
  let b := board_of sample_puzzle in
  cur_val (b !!! 0) = 5%Z ∧
  Forall (λ m, cur_val (m !!! 0) = 5%Z) (backtrack_with_min_val 82 b).1 ∧
  ∀ sol b', (backtrack_with_min_val 82 b).2 = Return sol b' → cur_val (b' !!! 0) = 5%Z.
Proof.
  intros b.
  assert (Hb : board_shape b) by (by vm_compute).
  assert (Hfill : fill_initial_board b sample_puzzle = Ok b) by (by vm_compute).
  apply (proj1 (proj2 (clues_are_preserved b sample_puzzle b 82 Hb Hfill)) 0 5%Z).
  - by vm_compute.
  - discriminate.
Defined.

(** C10.  A solved board makes the search return True at once, so
    [find_less_poss] is only reached on a board with an unassigned cell;
    there it returns a cell of the board, never the no-cell value, and the
    search never raises on reading the selected cell. *)
Theorem find_less_poss_returns_cell (b : Board) :
  board_shape b →
  (∀ d, board_is_solved b = true →
        backtrack_with_min_val (S d) b = ([], Return true b)) ∧
  (board_is_solved b = false →
     (∃ k, k < 81 ∧ cur_val (b !!! k) = 0%Z) ∧
     ∃ b1 c, find_less_poss b = (b1, Some c) ∧
             c < length b1 ∧ cur_val (b !!! c) = 0%Z) ∧
  (∀ depth e, (backtrack_with_min_val depth b).2 ≠ Raised e).
Proof.
  intros Hb. split_and!.
  - intros d Hs. cbn [backtrack_with_min_val]. by rewrite Hs.
  - intros Hs. apply board_is_solved_false in Hs. split; [done|].
    destruct (find_less_poss_found b Hb Hs) as (b1 & c & Hf & Hinv).
    destruct Hinv as (Hlen & _ & _ & _ & Hc & Hz & _).
    cbn [mrv_board min_cell min_len] in *.
    exists b1, c. split_and!; [done| |done]. rewrite Hlen, Hb. lia.
  - intros depth e. by apply backtrack_no_raise.
Qed.

Lemma find_less_poss_returns_cell_witness :
  let b := board_of sample_puzzle in
  (∃ k, k < 81 ∧ cur_val (b !!! k) = 0%Z) ∧
  ∃ b1 c, find_less_poss b = (b1, Some c) ∧ c < length b1 ∧ cur_val (b !!! c) = 0%Z.
Proof.
  intros b.
  assert (Hb : board_shape b) by (by vm_compute).
  apply (proj1 (proj2 (find_less_poss_returns_cell b Hb))). by vm_compute.
Defined.

Lemma find_less_poss_selects_witness :
  let b := board_of sample_puzzle in
  ∃ b' m, find_less_poss b = (b', Some m) ∧ m < 81 ∧ cur_val (b !!! m) = 0%Z ∧
    ∀ k, k < 81 → cur_val (b !!! k) = 0%Z →
         length (values (b' !!! m)) ≤ length (values (b' !!! k)).
Proof.
  intros b.
  assert (Hb : board_shape b) by (by vm_compute).
  assert (Hex : ∃ k, k < 81 ∧ cur_val (b !!! k) = 0%Z).
  { exists 2. split; [lia|by vm_compute]. }
  destruct (find_less_poss_selects b Hb Hex) as (b' & m & Hf & Hm & Hz & _ & _ & _ & Hmin).
  exists b', m. split_and!; [done..|]. intros k Hk Hkz. by apply Hmin.
Defined.

Lemma value_order_is_least_constraining_witness :
  let b := (find_less_poss (board_of dead_puzzle)).1 in
  1 < length (values (b !!! 10)) ∧
  ordered_values b 10 = least_constr_val b 10 ∧
  least_constr_val b 10 ≡ₚ values (b !!! 10).
Proof.
  intros b.
  assert (Hlen : 1 < length (values (b !!! 10))) by (vm_compute; lia).
  split; [exact Hlen|]. split.
  - exact (proj1 (proj2 (proj2 (proj2 (proj2
             (value_order_is_least_constraining b 10))))) Hlen).
  - exact (proj1 (proj2 (value_order_is_least_constraining b 10))).
Defined.

(** ** The constraint graph and solved grids *)

(** C7.  Running [find_neighbors] for each of the 81 positions of a board
    gives every cell a list of exactly 20 distinct neighbors, the cells
    other than itself that share its row, its column or its box; the
    relation is symmetric; the board that [main] builds has these lists; and
    no store produced or left by the search has other lists. *)
Theorem neighbor_graph (b : Board) :
  id <$> b = board_ids →
  ∃ b', link_all b = Ok b' ∧
    (∀ k, k < 81 →
       length (neighbors (b' !!! k)) = 20 ∧ NoDup (neighbors (b' !!! k)) ∧
       ∀ n, n ∈ neighbors (b' !!! k) ↔ n < 81 ∧ peers k n = true) ∧
    (∀ k n, k < 81 → n < 81 →
       n ∈ neighbors (b' !!! k) ↔ k ∈ neighbors (b' !!! n)) ∧
    (∀ puzzle bm, setup puzzle = Ok bm → neighbors <$> bm = neighbors <$> b') ∧
    (∀ depth,
       Forall (λ m, neighbors <$> m = neighbors <$> b')
              (backtrack_with_min_val depth b').1 ∧
       ∀ sol b'', (backtrack_with_min_val depth b').2 = Return sol b'' →
                  neighbors <$> b'' = neighbors <$> b').
Proof.
  intros Hid. destruct (link_all_linked b Hid) as (b' & Hrun & Hl & _ & _).
  exists b'. split; [done|].
  assert (Hentry : ∀ k, k < 81 →
    length (peer_graph !!! k) = 20 ∧ NoDup (peer_graph !!! k) ∧
    Forall (λ n, n ∈ peer_graph !!! k ↔ peers k n = true) (seq 0 81) ∧
    Forall (λ n, n < 81 ∧ n ≠ k ∧ k ∈ peer_graph !!! n) (peer_graph !!! k)).
  { intros k Hk. apply (proj1 (Forall_forall _ _) peer_graph_entries k).
    apply elem_of_seq. lia. }
  split_and!.
  - intros k Hk. rewrite (linked_neighbors b' k Hl Hk).
    destruct (Hentry k Hk) as (Hlen & Hnd & Hiff & Hin). split_and!; [done..|].
    rewrite Forall_forall in Hiff, Hin. intros n. split.
    + intros Hn. destruct (Hin n Hn) as (Hn81 & _). split; [done|].
      apply Hiff; [apply elem_of_seq; lia|done].
    + intros [Hn81 Hp]. apply Hiff; [apply elem_of_seq; lia|done].
  - intros k n Hk Hn. rewrite !linked_neighbors by done.
    destruct (Hentry k Hk) as (_ & _ & _ & Hink).
    destruct (Hentry n Hn) as (_ & _ & _ & Hinn).
    rewrite Forall_forall in Hink, Hinn. split; intros H.
    + by apply Hink.
    + by apply Hinn.
  - intros puzzle bm Hsetup. destruct (setup_linked puzzle bm Hsetup) as [Hlm _].
    unfold linked in *. congruence.
  - intros depth. destruct (backtrack_post depth b' (linked_shape b' Hl)) as [Hlog Hr].
    split.
    + eapply Forall_impl; [exact Hlog|]. intros m (_ & Ht & _).
      by apply topology_fmaps in Ht as [_ ?].
    + intros sol b'' E. rewrite E in Hr. destruct Hr as [(_ & Ht & _) _].
      by apply topology_fmaps in Ht as [_ ?].
Qed.

Lemma neighbor_graph_witness :
  ∃ b', link_all new_Board = Ok b' ∧
    ∀ k, k < 81 →
       length (neighbors (b' !!! k)) = 20 ∧ NoDup (neighbors (b' !!! k)) ∧
       ∀ n, n ∈ neighbors (b' !!! k) ↔ n < 81 ∧ peers k n = true.
Proof.
  destruct (neighbor_graph new_Board eq_refl) as (b' & Hrun & Hn & _).
  exists b'. split; [exact Hrun|exact Hn].
Defined.




(** * Further properties of the code *)

(** ** Indexing the board *)





(** ** The constraint check and the forward check *)



(** ** Boards are determined by their fields *)

Lemma board_ext (b b' : Board) :
  topology <$> b = topology <$> b' → values <$> b = values <$> b' →
  cur_vals b = cur_vals b' → b = b'.
Proof.
  unfold cur_vals. revert b'.
  induction b as [|c b IH]; intros [|c' b'] Ht Hv Hc; try done.
  csimpl in *. injection Ht as Ht1 Ht2. injection Hv as Hv1 Hv2.
  injection Hc as Hc1 Hc2. f_equal; [|by apply IH].
  destruct c, c'. unfold topology in Ht1. simpl in *. by simplify_eq.
Qed.

Lemma fmap_pointwise {B : Type} (f : Cell → B) (b b' : Board) :
  length b = length b' → (∀ k, f (b !!! k) = f (b' !!! k)) → f <$> b = f <$> b'.
Proof.
  intros Hlen H. apply list_eq. intros k. rewrite !list_lookup_fmap.
  specialize (H k). rewrite !list_lookup_total_alt in H.
  destruct (b !! k) as [x|] eqn:Ex, (b' !! k) as [y|] eqn:Ey; simpl in *.
  - by rewrite H.
  - apply lookup_lt_Some in Ex. apply lookup_ge_None in Ey. lia.
  - apply lookup_lt_Some in Ey. apply lookup_ge_None in Ex. lia.
  - done.
Qed.

(** ** Variable selection on a solved board *)

(** [board_is_solved] answers True exactly when no cell is unassigned, and
    exactly then [find_less_poss] returns the no-cell value; in that case it
    leaves the board as it was. *)
Theorem find_less_poss_none_iff_solved (b : Board) :
  board_shape b →
  (board_is_solved b = true ↔ unassigned b = 0) ∧
  (board_is_solved b = true → find_less_poss b = (b, None)) ∧
  (∀ b1, find_less_poss b = (b1, None) → board_is_solved b = true).
Proof.
  intros Hb.
  assert (Hinv := mrv_scan_inv b 81). rewrite Hb in Hinv. specialize (Hinv (le_n _)).
  split_and!.
  - rewrite unassigned_zero, Hb. apply board_is_solved_spec.
  - intros Hs. rewrite find_less_poss_scan. cbv zeta.
    destruct (foldl mrv_visit _ _) as [b' len found].
    destruct Hinv as (Hlen & Hcv & Htop & Hvals & Hmin).
    cbn [mrv_board min_cell min_len] in *.
    assert (Hnz := proj1 (board_is_solved_spec b) Hs).
    destruct found as [m|].
    { destruct Hmin as (Hm & Hz & _). by destruct (Hnz m Hm). }
    f_equal. apply board_ext; [done| |done].
    apply fmap_pointwise; [done|]. intros k. rewrite Hvals.
    rewrite decide_False; [done|]. intros [Hk Hz]. by apply (Hnz k).
  - intros b1. rewrite find_less_poss_scan. cbv zeta.
    destruct (foldl mrv_visit _ _) as [b' len found]. intros [= -> ->].
    destruct Hinv as (_ & _ & _ & _ & Hmin). cbn in Hmin.
    by apply board_is_solved_spec.
Qed.

Lemma find_less_poss_none_iff_solved_witness :
  let b := final_board (solve_back 82 (board_of sample_puzzle)).2 in
  board_is_solved b = true ∧ find_less_poss b = (b, None).
Proof.
  intros b.
  assert (Hb : board_shape b) by (vm_compute; reflexivity).
  assert (Hs : board_is_solved b = true) by (vm_compute; reflexivity).
  split; [exact Hs|].
  exact (proj1 (proj2 (find_less_poss_none_iff_solved b Hb)) Hs).
Defined.

(** ** More on [fill_initial_board] *)

Lemma cur_vals_pointwise (b b' : Board) :
  length b = length b' → (∀ k, cur_val (b !!! k) = cur_val (b' !!! k)) →
  cur_vals b = cur_vals b'.
Proof. apply fmap_pointwise. Qed.

Lemma fill_from_no_raise_ext (b b' : Board) count cs :
  (∃ e, fill_from b count cs = Raise e) ↔ (∃ e, fill_from b' count cs = Raise e).
Proof. by rewrite !fill_from_raises. Qed.

(** Filling a board twice with the same clue string is filling it once (as
    [main] does for every cell), and the call changes current values only:
    identifiers, neighbor lists, counters and domains are kept. *)
Theorem fill_initial_board_idempotent (b : Board) (str_board : pystr) (b' : Board) :
  board_shape b →
  fill_initial_board b str_board = Ok b' →
  fill_initial_board b' str_board = Ok b' ∧
  board_shape b' ∧
  topology <$> b' = topology <$> b ∧
  values <$> b' = values <$> b.
Proof.
  intros Hb Hfill. unfold fill_initial_board in *.
  destruct (fill_from_returns b 0 _ b' Hb Hfill) as (Hb' & Ht & Hv & Hcv).
  split_and!; try done.
  destruct (fill_from b' 0 str_board) as [b''|e] eqn:Hfill'.
  - destruct (fill_from_returns b' 0 _ b'' Hb' Hfill') as (Hb'' & Ht' & Hv' & Hcv').
    f_equal. apply board_ext; [done..|].
    apply cur_vals_pointwise; [by rewrite Hb', Hb''|].
    intros k. rewrite Hcv'. unfold filled_value at 1. rewrite Hcv.
    unfold filled_value. rewrite !decide_True by lia.
    by destruct (_ ≫= clue_of_char).
  - exfalso.
    destruct (proj2 (fill_from_no_raise_ext b b' 0 str_board))
      as [e' He']; [by eauto|]. by rewrite Hfill in He'.
Qed.

Lemma fill_initial_board_idempotent_witness :
  let b' := default [] (match fill_initial_board new_Board sample_puzzle with
                        | Ok x => Some x | Raise _ => None end) in
  fill_initial_board b' sample_puzzle = Ok b'.
Proof.
  intros b'.
  assert (H : fill_initial_board new_Board sample_puzzle = Ok b')
    by (vm_compute; reflexivity).
  exact (proj1 (fill_initial_board_idempotent new_Board sample_puzzle b' eq_refl H)).
Defined.

Lemma first_offending_head (cs : pystr) (count i : nat) (c : N) :
  offending count c → first_offending (c :: cs) count i ↔ i = 0.
Proof.
  intros Hc. split.
  - intros [_ Hfirst]. destruct i as [|i]; [done|]. exfalso.
    apply (Hfirst 0 c); [lia|done|]. by rewrite Nat.add_0_r.
  - intros ->. split.
    + exists c. by rewrite Nat.add_0_r.
    + intros j c' Hj. lia.
Qed.

Lemma first_offending_tail (cs : pystr) (count i : nat) (c : N) :
  ¬ offending count c →
  first_offending (c :: cs) count i ↔ ∃ i', i = S i' ∧ first_offending cs (S count) i'.
Proof.
  intros Hc. split.
  - intros [(c' & Hi & Ho) Hfirst]. destruct i as [|i].
    + simplify_eq/=. by rewrite Nat.add_0_r in Ho.
    + exists i. split; [done|]. split.
      * exists c'. split; [done|]. by replace (S count + i) with (count + S i) by lia.
      * intros j c'' Hj Hget. replace (S count + j) with (count + S j) by lia.
        apply (Hfirst (S j)); [lia|done].
  - intros (i' & -> & (c' & Hi & Ho) & Hfirst). split.
    + exists c'. split; [done|]. by replace (count + S i') with (S count + i') by lia.
    + intros [|j] c'' Hj Hget.
      * simplify_eq/=. by rewrite Nat.add_0_r.
      * replace (count + S j) with (S count + j) by lia.
        apply (Hfirst j); [lia|done].
Qed.

Lemma fill_from_raise_kind (b : Board) (count : nat) (cs : pystr) (e : exn) :
  fill_from b count cs = Raise e ↔
  ∃ i, first_offending cs count i ∧
       e = if bool_decide (81 ≤ count + i) then IndexError else ValueError.
Proof.
  revert b count. induction cs as [|c rest IH]; intros b count.
  - simpl. split; [done|]. by intros (i & [(c & ? & _) _] & _).
  - rewrite fill_from_cons.
    assert (Hshift : ∀ b1,
      fill_from b1 (S count) rest = Raise e ↔
      ∃ i, (∃ i', i = S i' ∧ first_offending rest (S count) i') ∧
           e = if bool_decide (81 ≤ count + i) then IndexError else ValueError).
    { intros b1. rewrite IH. split.
      - intros (i' & Hf & He). exists (S i'). split; [by eauto|].
        by replace (count + S i') with (S count + i') by lia.
      - intros (i & (i' & -> & Hf) & He). exists i'. split; [done|].
        by replace (S count + i') with (count + S i') by lia. }
    destruct (bool_decide_reflect (c = dot)) as [Hc|Hc];
      [|destruct (bool_decide_reflect (81 ≤ count)) as [Hk|Hk];
        [|destruct (decimal_value c) as [d|] eqn:Hd]].
    + rewrite Hshift. apply exist_proper. intros i.
      by rewrite (first_offending_tail rest count i c) by (unfold offending; tauto).
    + assert (Ho : offending count c) by (unfold offending; tauto). split.
      * intros [= <-]. exists 0. rewrite first_offending_head by done.
        split; [done|]. by rewrite bool_decide_true by lia.
      * intros (i & Hf & ->). apply first_offending_head in Hf as ->; [|done].
        by rewrite bool_decide_true by lia.
    + rewrite Hshift. apply exist_proper. intros i.
      rewrite (first_offending_tail rest count i c); [done|].
      unfold offending. rewrite Hd. intros [_ [?|?]]; [lia|done].
    + assert (Ho : offending count c) by (unfold offending; tauto). split.
      * intros [= <-]. exists 0. rewrite first_offending_head by done.
        split; [done|]. by rewrite bool_decide_false by lia.
      * intros (i & Hf & ->). apply first_offending_head in Hf as ->; [|done].
        by rewrite bool_decide_false by lia.
Qed.

(** The exception of [fill_initial_board] is decided by the first symbol that
    is not acceptable at its position: [IndexError] when that symbol lies
    after the 81st (the cell is looked up before the symbol is converted),
    [ValueError] when it lies among the first 81.  No other exception is
    raised. *)
Theorem fill_initial_board_exception (b : Board) (str_board : pystr) (e : exn) :
  fill_initial_board b str_board = Raise e ↔
  ∃ k, first_offending str_board 0 k ∧
       e = if bool_decide (81 ≤ k) then IndexError else ValueError.
Proof. unfold fill_initial_board. by rewrite fill_from_raise_kind. Qed.

Lemma fill_initial_board_exception_witness :
  fill_initial_board new_Board (str_of "1x") = Raise ValueError.
Proof.
  apply (proj2 (fill_initial_board_exception new_Board (str_of "1x") ValueError)).
  exists 1. split; [|reflexivity]. split.
  - exists 120%N. split; [reflexivity|]. split; [discriminate|].
    right. reflexivity.
  - intros j c Hj Hget. assert (j = 0) as -> by lia. injection Hget as <-.
    intros [_ [H|H]]; [lia|]. discriminate H.
Defined.

(** ** More on [find_neighbors] *)



Lemma assigned_among_snoc (b : Board) (ns : list nat) (n : nat) :
  assigned_among b (ns ++ [n]) =
  (if bool_decide (cur_val (b !!! n) ≠ 0%Z)
   then assigned_among b ns + 1 else assigned_among b ns)%Z.
Proof.
  unfold assigned_among. rewrite filter_app, length_app, filter_cons, filter_nil.
  case_bool_decide; case_decide; try done; simpl; lia.
Qed.

(** The counter kept by the scan is the number of assigned cells found. *)
Lemma scan_count (b : Board) (box row col : N) (acc : list nat * Z)
    (ps : list (nat * nat)) :
  acc.2 = assigned_among b acc.1 →
  (foldl (scan_step b box row col) acc ps).2 =
  assigned_among b (foldl (scan_step b box row col) acc ps).1.
Proof.
  revert acc. induction ps as [|p ps IH]; intros acc Hacc; [done|].
  simpl. apply IH. unfold scan_step.
  destruct (_ && _); [done|]. destruct (_ || _); [|done].
  cbn [fst snd]. by rewrite assigned_among_snoc, Hacc.
Qed.

Lemma find_neighbors_result (b : Board) (p : nat * nat) :
  id <$> b = board_ids → p ∈ positions →
  find_neighbors b (char_at (id (b !!! cell_ref p)) 0)
                   (char_at (id (b !!! cell_ref p)) 1)
                   (char_at (id (b !!! cell_ref p)) 2) =
  Ok (set_neighbors b (cell_ref p) (peer_graph !!! cell_ref p)
                    (assigned_among b (peer_graph !!! cell_ref p)),
      peer_graph !!! cell_ref p).
Proof.
  intros E Hp.
  assert (E' : id <$> b = id <$> new_Board) by (by rewrite new_Board_ids).
  rewrite (fmap_lookup_total id b new_Board _ E').
  destruct (proj1 (Forall_forall _ _) link_table p Hp) as [Hcell Hscan].
  unfold find_neighbors. cbv zeta.
  rewrite (scan_count b _ _ _ ([], 0%Z) positions eq_refl).
  rewrite (scan_ids b new_Board _ _ _ ([], 0%Z) ([], 0%Z) positions E' eq_refl).
  revert Hcell Hscan.
  generalize (foldl (scan_step new_Board (char_at (id (new_Board !!! cell_ref p)) 0)
    (char_at (id (new_Board !!! cell_ref p)) 1)
    (char_at (id (new_Board !!! cell_ref p)) 2)) ([], 0%Z) positions).
  generalize (char_at (id (new_Board !!! cell_ref p)) 0).
  generalize (char_at (id (new_Board !!! cell_ref p)) 1).
  generalize (char_at (id (new_Board !!! cell_ref p)) 2).
  intros col row box found.
  destruct (int_of_char row) as [r|]; [|intros H; discriminate H].
  destruct (int_of_char col) as [c|]; [|intros H; discriminate H].
  unfold mbind, result_bind. intros -> ->. reflexivity.
Qed.

(** Called for a cell of a board, [find_neighbors] returns the neighbor list
    of that cell, stores it in the cell and stores in [assigned_neigh] the
    number of those neighbors that are assigned at the time of the call (a
    snapshot: nothing updates it later); it changes no other cell and no
    value or domain. *)
Theorem find_neighbors_snapshot (b : Board) (p : nat * nat) :
  id <$> b = board_ids → p ∈ positions →
  ∃ b',
    find_neighbors b (char_at (id (b !!! cell_ref p)) 0)
                     (char_at (id (b !!! cell_ref p)) 1)
                     (char_at (id (b !!! cell_ref p)) 2) =
    Ok (b', peer_graph !!! cell_ref p) ∧
    neighbors (b' !!! cell_ref p) = peer_graph !!! cell_ref p ∧
    assigned_neigh (b' !!! cell_ref p) = assigned_among b (peer_graph !!! cell_ref p) ∧
    (∀ j, j ≠ cell_ref p → b' !!! j = b !!! j) ∧
    cur_vals b' = cur_vals b ∧ values <$> b' = values <$> b ∧ id <$> b' = id <$> b.
Proof.
  intros Hid Hp. eexists. split; [by apply find_neighbors_result|].
  assert (Hk : cell_ref p < length b).
  { rewrite (ids_shape b Hid).
    assert (cell_ref p ∈ seq 0 81) as ?%elem_of_seq; [|lia].
    rewrite <-positions_refs. by apply list_elem_of_fmap_2. }
  destruct (lookup_lt_is_Some_2 b _ Hk) as [c Hc].
  unfold set_neighbors. split_and!.
  - erewrite list_lookup_total_correct; [|by rewrite list_lookup_alter_eq, Hc]. done.
  - erewrite list_lookup_total_correct; [|by rewrite list_lookup_alter_eq, Hc]. done.
  - intros j Hj. by rewrite list_lookup_total_alter_ne.
  - by apply fmap_alter_unchanged.
  - by apply fmap_alter_unchanged.
  - by apply fmap_alter_unchanged.
Qed.

Lemma find_neighbors_snapshot_witness :
  let b := board_of sample_puzzle in
  ∃ b', find_neighbors b 65 49 49 = Ok (b', peer_graph !!! 0) ∧
        assigned_neigh (b' !!! 0) = assigned_among b (peer_graph !!! 0).
Proof.
  intros b.
  assert (Hid : id <$> b = board_ids) by (vm_compute; reflexivity).
  assert (Hp : (0, 0) ∈ positions) by (apply (bool_decide_unpack _); by vm_compute).
  destruct (find_neighbors_snapshot b (0, 0) Hid Hp) as (b' & Hrun & _ & Ha & _).
  exists b'. split; [exact Hrun|exact Ha].
Defined.

(** ** Completeness of the search *)

Lemma cur_val_nonzero_lt (b : Board) (n : nat) :
  cur_val (b !!! n) ≠ 0%Z → n < length b.
Proof.
  rewrite cur_val_lookup. intros H.
  destruct (cur_vals b !! n) as [v|] eqn:E; [|done].
  apply lookup_lt_Some in E. by rewrite cur_vals_length in E.
Qed.

Lemma solution_in_domain (b : Board) (g : nat → Z) (c : nat) :
  solution_of b g → c < length b → g c ∈ pruned b (neighbors (b !!! c)).
Proof.
  intros Hsol Hc. destruct (Hsol c Hc) as (Hr & _ & Hn).
  apply elem_of_pruned. split; [done|]. intros (n & Hin & Hnz & E).
  apply (Hn n Hin). destruct (Hsol n (cur_val_nonzero_lt b n Hnz)) as (_ & Hkeep & _).
  by rewrite Hkeep.
Qed.

Lemma solution_allowed (b bs : Board) (g : nat → Z) (c : nat) :
  solution_of b g → c < length b → loop_state b c bs → is_allowed bs c (g c) = true.
Proof.
  intros Hsol Hc Hl. destruct (Hsol c Hc) as (Hr & _ & Hn).
  apply is_allowed_spec. rewrite (loop_state_neighbors b c) by done.
  intros n Hin E. assert (Hnc : n ≠ c) by (intros ->; by apply (Hn c Hin)).
  rewrite (loop_state_other b c) in E by done.
  assert (Hnz : cur_val (b !!! n) ≠ 0%Z) by lia.
  destruct (Hsol n (cur_val_nonzero_lt b n Hnz)) as (_ & Hkeep & _).
  apply (Hn n Hin). by rewrite Hkeep.
Qed.

Lemma solution_step (b bs : Board) (g : nat → Z) (c : nat) :
  solution_of b g → c < length b → loop_state b c bs →
  solution_of (set_current bs c (g c)) g.
Proof.
  intros Hsol Hc Hl k Hk. assert (Hlen : length bs = length b) by apply Hl.
  rewrite set_current_length, Hlen in Hk.
  destruct (Hsol k Hk) as (Hr & Hkeep & Hn). split; [done|split].
  - destruct (decide (k = c)) as [->|Hkc].
    + by rewrite set_current_same by lia.
    + rewrite set_current_other by done. by rewrite (loop_state_other b c).
  - by rewrite set_current_neighbors, (loop_state_neighbors b c).
Qed.

(** The loop over the candidates does not give up while the value of a
    solution is among them. *)
Lemma try_values_complete (d : nat) (b bs : Board) (g : nat → Z) (c : nat) (vs : list Z) :
  (∀ b1, board_shape b1 → solution_of b1 g →
         ∀ b', (backtrack_with_min_val d b1).2 ≠ Return false b') →
  board_shape b → solution_of b g → c < 81 → cur_val (b !!! c) = 0%Z →
  loop_state b c bs → g c ∈ vs →
  ∀ b', (try_values (backtrack_with_min_val d) c vs bs).2 ≠ Return false b'.
Proof.
  intros IHd Hb Hsol Hc Hz. assert (Hcb : c < length b) by (rewrite Hb; lia).
  revert bs. induction vs as [|i vs IH]; intros bs Hl Hin b'.
  - by apply elem_of_nil in Hin.
  - cbn [try_values]. destruct (is_allowed bs c i) eqn:Hallow.
    + cbv zeta.
      assert (Hb1 : board_shape (set_current bs c i)).
      { unfold board_shape. rewrite set_current_length. by destruct Hl as (-> & _). }
      assert (Hpost := backtrack_post d (set_current bs c i) Hb1).
      assert (Hcomp := IHd (set_current bs c i) Hb1).
      destruct (backtrack_with_min_val d (set_current bs c i)) as [log r].
      destruct Hpost as [_ Hr]. cbn [fst snd] in Hr, Hcomp.
      destruct r as [[|] b2| |]; cbn [snd]; try done.
      destruct Hr as ((Hlen2 & Ht2 & _) & Hv2).
      assert (Hl1 : loop_state b c (set_current bs c i)) by by apply loop_state_assign.
      assert (Hl2 : loop_state b c b2).
      { destruct Hl1 as (Hlen1 & Ht1 & x & Ex).
        split_and!; [congruence..|]. exists x. congruence. }
      assert (Hne : g c ≠ i).
      { intros <-. apply (Hcomp (solution_step b bs g c Hsol Hcb Hl) b2). done. }
      apply elem_of_cons in Hin as [?|Hin]; [done|].
      specialize (IH b2 Hl2 Hin b').
      by destruct (try_values (backtrack_with_min_val d) c vs b2).
    + apply IH; [done|]. apply elem_of_cons in Hin as [<-|Hin]; [|done].
      by rewrite (solution_allowed b bs g c) in Hallow.
Qed.

Lemma backtrack_complete (d : nat) (b : Board) (g : nat → Z) :
  board_shape b → solution_of b g →
  ∀ b', (backtrack_with_min_val d b).2 ≠ Return false b'.
Proof.
  revert b. induction d as [|d IHd]; intros b Hb Hsol b'; [done|].
  destruct (board_is_solved b) eqn:Hs.
  { cbn [backtrack_with_min_val]. by rewrite Hs. }
  destruct (find_less_poss_found b Hb) as (b1 & c & Hf & Hinv);
    [by apply board_is_solved_false|].
  destruct Hinv as (Hlen1 & Hcv1 & Htop1 & _ & Hc & Hz & _).
  cbn [mrv_board min_cell min_len] in *.
  rewrite (backtrack_with_min_val_step d b b1 c Hs Hf). cbv zeta.
  unfold initial_values. cbn [fst].
  change (pruned b1 (neighbors (b1 !!! c))) with (domain_of b1 c).
  rewrite (domain_of_ext b1 b c Hcv1 Htop1).
  set (b2 := set_values b1 c (domain_of b c)).
  assert (Hval : values (b2 !!! c) = domain_of b c).
  { unfold b2. apply set_values_same. rewrite Hlen1, Hb. lia. }
  assert (Hg : g c ∈ domain_of b c).
  { apply solution_in_domain; [done|]. rewrite Hb. lia. }
  case_bool_decide as Hempty.
  - rewrite Hval in Hempty. rewrite Hempty in Hg. by apply elem_of_nil in Hg.
  - apply (try_values_complete d b b2 g c); try done.
    + split_and!.
      * unfold b2. by rewrite set_values_length.
      * unfold b2. by rewrite set_values_topology.
      * exists 0%Z. unfold b2. rewrite set_values_cur_vals, Hcv1. symmetry.
        apply list_insert_id, cur_vals_unassigned; [rewrite Hb; lia|done].
    + by rewrite ordered_values_perm, Hval.
Qed.

(** The search is complete: on a board of 81 cells that has a solution (an
    assignment of 1..9 to all cells that keeps the assigned values and gives
    no cell the value of a neighbor) no activation returns False, and with a
    depth budget of 82 [solve_back] returns True. *)
Theorem search_is_complete (b : Board) (g : nat → Z) :
  board_shape b → solution_of b g →
  (∀ depth b', (backtrack_with_min_val depth b).2 ≠ Return false b') ∧
  ∃ b', (solve_back 82 b).2 = Return true b'.
Proof.
  intros Hb Hsol. split; [intros depth; by apply (backtrack_complete depth b g)|].
  unfold solve_back.
  destruct (backtrack_returns b 82 Hb) as ([|] & b' & Hr).
  - assert (H := unassigned_bound b). rewrite Hb in H. lia.
  - by exists b'.
  - by destruct (backtrack_complete 82 b g Hb Hsol b').
Qed.

Lemma solution_forall (b : Board) (g : nat → Z) :
  Forall (λ k, (1 ≤ g k ≤ 9)%Z ∧
               (cur_val (b !!! k) ≠ 0%Z → g k = cur_val (b !!! k)) ∧
               Forall (λ n, g n ≠ g k) (neighbors (b !!! k)))
         (seq 0 (length b)) →
  solution_of b g.
Proof.
  intros H k Hk. rewrite Forall_forall in H.
  destruct (H k) as (Hr & Hkeep & Hn); [apply elem_of_seq; lia|].
  split; [done|split; [done|]]. by apply Forall_forall.
Qed.

Lemma search_is_complete_witness :
  let b := board_of sample_puzzle in
  ∃ b', (solve_back 82 b).2 = Return true b'.
Proof.
  intros b.
  assert (Hb : board_shape b) by (vm_compute; reflexivity).
  assert (Hsol : solution_of b (clue_value sample_solution)).
  { apply solution_forall. apply (bool_decide_unpack _). by vm_compute. }
  exact (proj2 (search_is_complete b _ Hb Hsol)).
Defined.

(** On the board [main] builds, or any linked board, whose clues do not
    conflict, the search decides solvability: with a depth budget of 82 it
    returns True exactly when the clues have a solution, in which case the
    values it leaves are one, and it returns False exactly when they have
    none. *)
Theorem search_decides_solvability (b : Board) :
  linked b → consistent b →
  ((∃ b', (solve_back 82 b).2 = Return true b') ↔ ∃ g, solution_of b g) ∧
  ((∃ b', (solve_back 82 b).2 = Return false b') ↔ ¬ ∃ g, solution_of b g) ∧
  (∀ b', (solve_back 82 b).2 = Return true b' →
         solution_of b (λ k, cur_val (b' !!! k))).
Proof.
  intros Hl Hc. assert (Hb := linked_shape b Hl). unfold solve_back.
  assert (Htrue : ∀ b', (backtrack_with_min_val 82 b).2 = Return true b' →
                        solution_of b (λ k, cur_val (b' !!! k))).
  { intros b' Hr. destruct (backtrack_post 82 b Hb) as [_ Hpost].
    rewrite Hr in Hpost. destruct Hpost as ((Hlen & Ht & Hkeep) & Hu & Hcons).
    specialize (Hcons (linked_symmetric b Hl) Hc).
    intros k Hk. rewrite <-Hlen in Hk.
    destruct (Hcons k Hk) as [Hr' Hn]; [by apply (proj1 (unassigned_zero b') Hu)|].
    split; [done|split; [by apply Hkeep|]].
    intros n Hin. apply Hn.
    by destruct (topology_lookup _ _ k Ht) as (_ & -> & _). }
  assert (Hret : unassigned b < 82).
  { assert (H := unassigned_bound b). rewrite Hb in H. lia. }
  split_and!; [split| split |done].
  - intros [b' Hr]. eauto.
  - intros [g Hsol]. destruct (backtrack_returns b 82 Hb Hret) as ([|] & b' & Hr).
    + by exists b'.
    + by destruct (backtrack_complete 82 b g Hb Hsol b').
  - intros [b' Hr] [g Hsol]. by destruct (backtrack_complete 82 b g Hb Hsol b').
  - intros Hno. destruct (backtrack_returns b 82 Hb Hret) as ([|] & b' & Hr).
    + destruct Hno. eauto.
    + by exists b'.
Qed.

Lemma search_decides_solvability_witness :
  let b := board_of stuck_puzzle in
  ¬ ∃ g, solution_of b g.
Proof.
  intros b.
  assert (Hl : linked b).
  { apply (setup_linked stuck_puzzle). vm_compute. reflexivity. }
  assert (Hc : consistent b).
  { apply consistent_forall. apply (bool_decide_unpack _). by vm_compute. }
  apply (proj1 (proj1 (proj2 (search_decides_solvability b Hl Hc)))).
  eexists. vm_compute. reflexivity.
Defined.

(** ** The set-up done by [main] *)

Lemma positions_head : ∃ rest, positions = (0, 0) :: rest.
Proof. eexists. reflexivity. Qed.

#[local] Opaque peer_graph new_Board positions.

Lemma for_each_prefix {S A : Type} (body : S → A → result S)
    (I : list A → S → Prop) (l : list A) (s s' : S) :
  I [] s →
  (∀ seen x rest s0 s1, l = seen ++ x :: rest → I seen s0 →
     body s0 x = Ok s1 → I (seen ++ [x]) s1) →
  for_each body s l = Ok s' → I l s'.
Proof.
  intros Hinit Hstep.
  assert (H : ∀ rest seen s0, l = seen ++ rest → I seen s0 →
                for_each body s0 rest = Ok s' → I l s').
  { induction rest as [|x rest IH]; intros seen s0 Hl Hseen Hrun.
    - injection Hrun as <-. by rewrite Hl, app_nil_r.
    - cbn [for_each] in Hrun. unfold mbind, result_bind in Hrun.
      destruct (body s0 x) as [s1|] eqn:E; [|discriminate Hrun].
      apply (IH (seen ++ [x]) s1); [by rewrite <-app_assoc|by eapply Hstep|done]. }
  by apply (H l [] s).
Qed.

Lemma setup_step_result (puzzle : pystr) (b : Board) (p : nat * nat) :
  id <$> b = board_ids → p ∈ positions →
  setup_step puzzle b p =
  match fill_initial_board
          (set_neighbors b (cell_ref p) (peer_graph !!! cell_ref p)
                         (assigned_among b (peer_graph !!! cell_ref p))) puzzle with
  | Ok bf => Ok (set_values bf (cell_ref p) (pruned bf (peer_graph !!! cell_ref p)))
  | Raise e => Raise e
  end.
Proof.
  intros Hid Hp. unfold setup_step. cbv zeta.
  rewrite (find_neighbors_result b p Hid Hp). unfold mbind, result_bind. cbn [fst snd].
  by destruct (fill_initial_board _ _).
Qed.

Lemma fill_initial_board_raise_ext (b b' : Board) (puzzle : pystr) (e : exn) :
  fill_initial_board b puzzle = Raise e ↔ fill_initial_board b' puzzle = Raise e.
Proof. unfold fill_initial_board. by rewrite !fill_from_raise_kind. Qed.

Lemma setup_steps_return (puzzle : pystr) (ps : list (nat * nat)) (b b0 bf : Board) :
  fill_initial_board b0 puzzle = Ok bf →
  (∀ p, p ∈ ps → p ∈ positions) → id <$> b = board_ids →
  ∃ b', for_each (setup_step puzzle) b ps = Ok b'.
Proof.
  intros Hfill. revert b. induction ps as [|p ps IH]; intros b Hps Hid; [by exists b|].
  cbn [for_each]. rewrite setup_step_result; [|done|apply Hps; left].
  destruct (fill_initial_board (set_neighbors _ _ _ _) puzzle) as [bf'|e] eqn:E.
  - unfold mbind, result_bind. apply IH; [intros; apply Hps; by right|].
    apply fill_from_returns in E as (_ & Ht & _).
    2:{ apply ids_shape. by rewrite set_neighbors_ids. }
    assert (Ht' : topology <$> set_values bf' (cell_ref p)
                    (pruned bf' (peer_graph !!! cell_ref p)) =
                  topology <$> set_neighbors b (cell_ref p) (peer_graph !!! cell_ref p)
                    (assigned_among b (peer_graph !!! cell_ref p))).
    { by rewrite set_values_topology. }
    apply topology_fmaps in Ht' as [-> _]. by rewrite set_neighbors_ids.
  - apply (fill_initial_board_raise_ext _ b0) in E. by rewrite Hfill in E.
Qed.

Lemma positions_prefix (seen rest : list (nat * nat)) (x : nat * nat) :
  positions = seen ++ x :: rest →
  cell_ref x = length seen ∧ length seen < 81 ∧
  ∀ p, p ∈ seen → cell_ref p < length seen.
Proof.
  intros Hl. assert (Hrefs := positions_refs). rewrite Hl in Hrefs.
  assert (Hat : ∀ i p, (seen ++ x :: rest) !! i = Some p → cell_ref p = i ∧ i < 81).
  { intros i p Hi.
    assert (Hi' : (cell_ref <$> seen ++ x :: rest) !! i = Some (cell_ref p)).
    { by rewrite list_lookup_fmap, Hi. }
    rewrite Hrefs in Hi'. apply lookup_seq in Hi' as [-> ?]. done. }
  destruct (Hat (length seen) x) as [Hx ?].
  { by rewrite lookup_app_r, Nat.sub_diag by lia. }
  split_and!; [done..|].
  intros p (i & Hi)%list_elem_of_lookup_1.
  destruct (Hat i p) as [-> _]; [by apply lookup_app_l_Some|].
  by eapply lookup_lt_Some.
Qed.

Lemma new_Board_unassigned (k : nat) : cur_val (new_Board !!! k) = 0%Z.
Proof.
  rewrite cur_val_lookup.
  assert (H : Forall (λ v, v = 0%Z) (cur_vals new_Board)).
  { apply (bool_decide_unpack _). by vm_compute. }
  destruct (cur_vals new_Board !! k) as [v|] eqn:E; [|done].
  apply list_elem_of_lookup_2 in E. by apply (proj1 (Forall_forall _ _) H).
Qed.

Lemma assigned_among_ext (b b' : Board) (ns : list nat) :
  (∀ n, cur_val (b !!! n) = cur_val (b' !!! n)) →
  assigned_among b ns = assigned_among b' ns.
Proof.
  intros H. unfold assigned_among. do 2 f_equal.
  apply list_filter_iff. intros n. by rewrite H.
Qed.

Lemma assigned_among_none (b : Board) (ns : list nat) :
  (∀ n, cur_val (b !!! n) = 0%Z) → assigned_among b ns = 0%Z.
Proof.
  intros H. unfold assigned_among.
  replace (filter (λ n, cur_val (b !!! n) ≠ 0%Z) ns) with (@nil nat); [done|].
  symmetry. induction ns as [|n ns IH]; [done|].
  rewrite filter_cons. case_decide as Hn; [|done]. by rewrite H in Hn.
Qed.

(** The state of the board after the set-up loop of [main] has treated the
    cells [seen]. *)
Lemma setup_step_inv (puzzle : pystr) (seen rest : list (nat * nat))
    (x : nat * nat) (b b1 : Board) :
  positions = seen ++ x :: rest →
  (id <$> b = board_ids ∧
   (seen = [] → b = new_Board) ∧
   (seen ≠ [] → ∀ k, cur_val (b !!! k) = clue_value puzzle k) ∧
   ∀ p, p ∈ seen →
     neighbors (b !!! cell_ref p) = peer_graph !!! cell_ref p ∧
     values (b !!! cell_ref p) = pruned b (peer_graph !!! cell_ref p) ∧
     assigned_neigh (b !!! cell_ref p) =
       if decide (cell_ref p = 0) then 0%Z
       else assigned_among b (peer_graph !!! cell_ref p)) →
  setup_step puzzle b x = Ok b1 →
  id <$> b1 = board_ids ∧
  (seen ++ [x] = [] → b1 = new_Board) ∧
  (seen ++ [x] ≠ [] → ∀ k, cur_val (b1 !!! k) = clue_value puzzle k) ∧
  ∀ p, p ∈ seen ++ [x] →
    neighbors (b1 !!! cell_ref p) = peer_graph !!! cell_ref p ∧
    values (b1 !!! cell_ref p) = pruned b1 (peer_graph !!! cell_ref p) ∧
    assigned_neigh (b1 !!! cell_ref p) =
      if decide (cell_ref p = 0) then 0%Z
      else assigned_among b1 (peer_graph !!! cell_ref p).
Proof.
  intros Hpos (Hid & Hnew & Hclues & Hseen).
  destruct (positions_prefix seen rest x Hpos) as (Hx & Hx81 & Hbefore).
  assert (Hp : x ∈ positions).
  { rewrite Hpos. apply elem_of_app. right. left. }
  rewrite setup_step_result by done.
  set (k := cell_ref x) in *. set (ns := peer_graph !!! k).
  set (bl := set_neighbors b k ns (assigned_among b ns)).
  destruct (fill_initial_board bl puzzle) as [bf|] eqn:Hfill; [|discriminate].
  intros [= <-].
  assert (Hbl : board_shape bl).
  { apply ids_shape. unfold bl. by rewrite set_neighbors_ids. }
  destruct (fill_from_returns bl 0 _ bf Hbl Hfill) as (Hbf & Ht & Hv & Hcv).
  set (b1 := set_values bf k (pruned bf ns)).
  assert (Hcv_bl : ∀ j, cur_val (bl !!! j) = cur_val (b !!! j)).
  { intros j. apply cur_vals_lookup. unfold bl. apply set_neighbors_cur_vals. }
  assert (Hcv1 : ∀ j, cur_val (b1 !!! j) = clue_value puzzle j).
  { intros j. unfold b1. rewrite set_values_cur_val, Hcv.
    unfold filled_value. rewrite Hcv_bl. unfold clue_value, clue_at.
    rewrite decide_True by lia. rewrite Nat.sub_0_r.
    destruct seen as [|p0 seen'].
    - rewrite (Hnew eq_refl), new_Board_unassigned. done.
    - rewrite Hclues by done. unfold clue_value, clue_at.
      by destruct (puzzle !! j ≫= clue_of_char). }
  assert (Hcvs : cur_vals b1 = cur_vals bf).
  { unfold b1. apply set_values_cur_vals. }
  assert (Hk : k < length bf) by (rewrite Hbf; unfold k; lia).
  assert (Ht1 : topology <$> b1 = topology <$> bl).
  { unfold b1. by rewrite set_values_topology. }
  split_and!.
  - apply topology_fmaps in Ht1 as [-> _]. unfold bl. by rewrite set_neighbors_ids.
  - intros H. by destruct seen.
  - done.
  - intros p [Hin| ->%list_elem_of_singleton]%elem_of_app.
    + (* a cell treated before *)
      assert (Hne : seen ≠ []) by (intros ->; by apply elem_of_nil in Hin).
      assert (Hpk : cell_ref p ≠ k) by (specialize (Hbefore p Hin); unfold k; lia).
      destruct (Hseen p Hin) as (Hn & Hvals & Ha).
      assert (Hsame : ∀ j, cur_val (b1 !!! j) = cur_val (b !!! j)).
      { intros j. by rewrite Hcv1, Hclues. }
      assert (Hcvb : cur_vals b1 = cur_vals b).
      { apply cur_vals_pointwise; [|done].
        unfold b1. rewrite set_values_length, Hbf. symmetry. by apply ids_shape. }
      destruct (topology_lookup _ _ (cell_ref p) Ht1) as (_ & Hn1 & Ha1).
      assert (Hbl_p : bl !!! cell_ref p = b !!! cell_ref p).
      { unfold bl, set_neighbors. by rewrite list_lookup_total_alter_ne. }
      rewrite Hn1, Ha1, Hbl_p. split_and!; [done| |].
      * unfold b1. rewrite set_values_other by done.
        rewrite (fmap_lookup_total values bf bl _ Hv), Hbl_p, Hvals.
        by apply pruned_ext.
      * rewrite Ha. case_decide; [done|]. symmetry. by apply assigned_among_ext.
    + (* the cell treated now *)
      fold k. destruct (topology_lookup _ _ k Ht1) as (_ & Hn1 & Ha1).
      assert (Hblk : neighbors (bl !!! k) = ns ∧
                     assigned_neigh (bl !!! k) = assigned_among b ns).
      { unfold bl, set_neighbors.
        destruct (lookup_lt_is_Some_2 b k) as [c Hc].
        { rewrite (ids_shape b Hid). unfold k. lia. }
        erewrite list_lookup_total_correct; [|by rewrite list_lookup_alter_eq, Hc].
        done. }
      destruct Hblk as [Hnk Hak]. rewrite Hn1, Ha1, Hnk, Hak. split_and!; [done| |].
      * unfold b1 at 1. rewrite set_values_same by done. by apply pruned_ext.
      * destruct seen as [|p0 seen'].
        -- rewrite decide_True by (change (k = 0); by rewrite Hx).
           apply assigned_among_none. intros n.
           rewrite (Hnew eq_refl). apply new_Board_unassigned.
        -- rewrite decide_False by (change (k ≠ 0); rewrite Hx; simpl; lia).
           apply assigned_among_ext. intros n. by rewrite Hcv1, Hclues.
Qed.

Lemma setup_raises (puzzle : pystr) (e : exn) :
  fill_initial_board new_Board puzzle = Raise e → setup puzzle = Raise e.
Proof.
  intros Hfill. unfold setup. destruct positions_head as [rest Hrest].
  assert (Hp : (0, 0) ∈ positions) by (rewrite Hrest; left).
  rewrite Hrest. cbn [for_each].
  rewrite (setup_step_result puzzle new_Board (0, 0) new_Board_ids Hp).
  apply (fill_initial_board_raise_ext _ (set_neighbors new_Board (cell_ref (0, 0))
           (peer_graph !!! cell_ref (0, 0))
           (assigned_among new_Board (peer_graph !!! cell_ref (0, 0))))) in Hfill.
  by rewrite Hfill.
Qed.

(** The set-up loop of [main] raises exactly when [fill_initial_board] raises
    on the clue string, with the same exception, and then already at the
    first cell: a malformed string never reaches the search. *)
Theorem setup_raises_as_fill (puzzle : pystr) (e : exn) :
  setup puzzle = Raise e ↔ fill_initial_board new_Board puzzle = Raise e.
Proof.
  split; [|apply setup_raises].
  intros Hsetup. destruct (fill_initial_board new_Board puzzle) as [bf|e0] eqn:Hfill.
  - destruct (setup_steps_return puzzle positions new_Board new_Board bf Hfill)
      as [b' Hb']; [done|apply new_Board_ids|].
    unfold setup in Hsetup. by rewrite Hb' in Hsetup.
  - apply setup_raises in Hfill. by rewrite Hfill in Hsetup.
Qed.

(** What the set-up loop of [main] hands to the search: every cell holds the
    value of its clue (0 without one), is linked to its neighbors and has the
    forward-checked domain; [assigned_neigh] is the number of clued neighbors
    of the cell, except for the first cell A11, whose neighbors are counted
    before any clue is on the board and which therefore keeps 0. *)
Theorem setup_establishes (puzzle : pystr) (b : Board) :
  setup puzzle = Ok b →
  id <$> b = board_ids ∧ linked b ∧
  (∀ k, cur_val (b !!! k) = clue_value puzzle k) ∧
  (∀ k, k < 81 → values (b !!! k) = domain_of b k) ∧
  assigned_neigh (b !!! 0) = 0%Z ∧
  (∀ k, 0 < k < 81 →
        assigned_neigh (b !!! k) = assigned_among b (neighbors (b !!! k))).
Proof.
  intros Hsetup. destruct (setup_linked puzzle b Hsetup) as [Hl Hid].
  pose (I := λ (seen : list (nat * nat)) (b : Board),
    id <$> b = board_ids ∧
    (seen = [] → b = new_Board) ∧
    (seen ≠ [] → ∀ k, cur_val (b !!! k) = clue_value puzzle k) ∧
    ∀ p, p ∈ seen →
      neighbors (b !!! cell_ref p) = peer_graph !!! cell_ref p ∧
      values (b !!! cell_ref p) = pruned b (peer_graph !!! cell_ref p) ∧
      assigned_neigh (b !!! cell_ref p) =
        if decide (cell_ref p = 0) then 0%Z
        else assigned_among b (peer_graph !!! cell_ref p)).
  assert (Hinv : I positions b).
  { apply (for_each_prefix (setup_step puzzle) I positions new_Board b).
    - split; [apply new_Board_ids|]. split; [intros _; reflexivity|].
      split; [intros H; exfalso; apply H; reflexivity|].
      intros p Hp. inversion Hp.
    - intros seen x rest s0 s1 Hpos Hs0 Hstep.
      exact (setup_step_inv puzzle seen rest x s0 s1 Hpos Hs0 Hstep).
    - exact Hsetup. }
  destruct Hinv as (_ & _ & Hclues & Hcells).
  assert (Hne : positions ≠ []).
  { destruct positions_head as [rest Hrest]. rewrite Hrest. discriminate. }
  assert (Hcell : ∀ k, k < 81 → ∃ p, p ∈ positions ∧ cell_ref p = k).
  { intros k Hk. assert (Hin : k ∈ cell_ref <$> positions).
    { rewrite positions_refs. apply elem_of_seq. lia. }
    apply list_elem_of_fmap in Hin as (p & Hpk & Hp).
    exists p. split; [exact Hp|]. symmetry. exact Hpk. }
  clear Hsetup.
  split; [exact Hid|]. split; [exact Hl|]. split; [exact (Hclues Hne)|].
  split; [|split].
  - intros k Hk. destruct (Hcell k Hk) as (p & Hp & Hpk).
    destruct (Hcells p Hp) as (Hn & Hv & _). rewrite Hpk in Hn, Hv.
    unfold domain_of. rewrite Hn. exact Hv.
  - destruct (Hcell 0) as (p & Hp & Hp0); [lia|].
    destruct (Hcells p Hp) as (_ & _ & Ha). rewrite Hp0 in Ha.
    rewrite decide_True in Ha by reflexivity. exact Ha.
  - intros k Hk. destruct (Hcell k) as (p & Hp & Hpk); [lia|].
    destruct (Hcells p Hp) as (Hn & _ & Ha). rewrite Hpk in Hn, Ha.
    rewrite decide_False in Ha by lia. rewrite Hn. exact Ha.
Qed.

Lemma setup_raises_as_fill_witness : setup (str_of "x") = Raise ValueError.
Proof.
  apply (proj2 (setup_raises_as_fill (str_of "x") ValueError)). vm_compute. reflexivity.
Defined.

Lemma setup_establishes_witness :
  let b := board_of sample_puzzle in
  (∀ k, cur_val (b !!! k) = clue_value sample_puzzle k) ∧
  assigned_neigh (b !!! 0) = 0%Z.
Proof.
  intros b.
  assert (Hs : setup sample_puzzle = Ok b) by (vm_compute; reflexivity).
  destruct (setup_establishes sample_puzzle b Hs) as (_ & _ & Hc & _ & Ha & _).
  split; [exact Hc|exact Ha].
Defined.
